(** * postalclient-go: the transport wrapper and the endpoint methods

    A shallow embedding of the Go package [postalclient] (the client, its
    [do]/[post] transport wrapper and the four endpoint methods) together
    with the part of [encoding/json] and [net/http] the package relies on,
    and the properties of the package stated over that embedding. *)

From stdpp Require Import base option list strings gmap.
From Stdlib Require Import ZArith NArith Ascii String Lia Bool.

Open Scope string_scope.

(** ** Bytes

    Go strings and byte slices are modelled as [string] (a sequence of
    8-bit [ascii] values). *)

Definition bytes := string.

Definition code (c : ascii) : N := N_of_ascii c.

Definition chr (n : N) : ascii := ascii_of_N n.

Definition in_range (lo hi : N) (c : ascii) : bool :=
  (N.leb lo (code c) && N.leb (code c) hi)%bool.

Definition dquote : ascii := "034"%char.
Definition backslash : ascii := "092"%char.

(** [q s] writes a JSON text with apostrophes in place of double quotes. *)
Fixpoint q (s : string) : string :=
  match s with
  | EmptyString => EmptyString
  | String c r => String (if Ascii.eqb c "'"%char then dquote else c) (q r)
  end.

(** ** encoding/json: the scanner

    [checkValid] accepts exactly the JSON grammar; the functions below
    scan one value and build its tree, keeping for every object member the
    bytes of its value, which is what a [json.RawMessage] field and an
    [Unmarshaler] receive. *)

#[local] Set Warnings "-register-all".

Inductive jvalue : Type :=
| JNull
| JBool (b : bool)
| JNumber (lit : string)
| JString (s : string)
| JArray (elems : list jvalue)
| JObject (members : list (string * (bytes * jvalue))).

(** scanner.go, [isSpace]. *)
Definition isSpace (c : ascii) : bool :=
  (N.eqb (code c) 32 || N.eqb (code c) 9 || N.eqb (code c) 13 || N.eqb (code c) 10)%bool.

Fixpoint skip_ws (s : string) : string :=
  match s with
  | String c r => if isSpace c then skip_ws r else s
  | EmptyString => s
  end.

Definition isDigit (c : ascii) : bool := in_range 48 57 c.

Definition isHex (c : ascii) : bool :=
  (in_range 48 57 c || in_range 97 102 c || in_range 65 70 c)%bool.

Definition hexVal (c : ascii) : N :=
  if in_range 48 57 c then code c - 48
  else if in_range 97 102 c then code c - 97 + 10
  else code c - 65 + 10.

(** decode.go, [getu4]: the value of four hexadecimal digits. *)
Definition getu4 (h1 h2 h3 h4 : ascii) : option N :=
  if (isHex h1 && isHex h2 && isHex h3 && isHex h4)%bool
  then Some (((hexVal h1 * 16 + hexVal h2) * 16 + hexVal h3) * 16 + hexVal h4)%N
  else None.

(** unicode/utf8, [EncodeRune]; surrogates and values above U+10FFFF are
    written as U+FFFD. *)
Definition replacementChar : N := 65533.

Definition EncodeRune (r : N) : string :=
  let r := if (N.leb 55296 r && N.leb r 57343)%bool then replacementChar
           else if N.ltb 1114111 r then replacementChar else r in
  if N.ltb r 128 then String (chr r) EmptyString
  else if N.ltb r 2048 then
    String (chr (192 + r / 64)) (String (chr (128 + r mod 64)) EmptyString)
  else if N.ltb r 65536 then
    String (chr (224 + r / 4096))
      (String (chr (128 + (r / 64) mod 64))
         (String (chr (128 + r mod 64)) EmptyString))
  else
    String (chr (240 + r / 262144))
      (String (chr (128 + (r / 4096) mod 64))
         (String (chr (128 + (r / 64) mod 64))
            (String (chr (128 + r mod 64)) EmptyString))).

(** unicode/utf8, [DecodeRune], reduced to what the decoder needs: the
    length of the well-formed sequence that starts with the byte [c]
    followed by [r], or [0] when there is none (Go then reads one byte as
    U+FFFD). *)
Definition cont (lo hi : N) (s : string) : option string :=
  match s with
  | String c r => if in_range lo hi c then Some r else None
  | EmptyString => None
  end.

Definition utf8_seq_len (c : ascii) (r : string) : nat :=
  let n := code c in
  let chain (lo hi : N) (k : nat) : nat :=
    match cont lo hi r with
    | None => 0
    | Some r1 =>
        match k with
        | 0 => 2
        | S k1 =>
            match cont 128 191 r1 with
            | None => 0
            | Some r2 =>
                match k1 with
                | 0 => 3
                | S _ => match cont 128 191 r2 with None => 0 | Some _ => 4 end
                end
            end
        end
    end in
  if in_range 194 223 c then chain 128%N 191%N 0
  else if N.eqb n 224 then chain 160%N 191%N 1
  else if in_range 225 236 c then chain 128%N 191%N 1
  else if N.eqb n 237 then chain 128%N 159%N 1
  else if in_range 238 239 c then chain 128%N 191%N 1
  else if N.eqb n 240 then chain 144%N 191%N 2
  else if in_range 241 243 c then chain 128%N 191%N 2
  else if N.eqb n 244 then chain 128%N 143%N 2
  else 0.

(** utf16, [DecodeRune] on a surrogate pair. *)
Definition utf16_pair (hi lo : N) : option N :=
  if (N.leb 55296 hi && N.ltb hi 56320 && N.leb 56320 lo && N.ltb lo 57344)%bool
  then Some ((hi - 55296) * 1024 + (lo - 56320) + 65536)%N
  else None.

(** The low half of a surrogate pair, when the text goes on with a
    [\uXXXX] escape. *)
Definition next_u4 (s : string) : option (N * string) :=
  match s with
  | String b (String u (String h1 (String h2 (String h3 (String h4 r))))) =>
      if (Ascii.eqb b backslash && Ascii.eqb u "u"%char)%bool
      then match getu4 h1 h2 h3 h4 with Some n => Some (n, r) | None => None end
      else None
  | _ => None
  end.

(** A string literal after its opening quote: the scanner's string states
    ([stateInString], [stateInStringEsc], [stateInStringEscU...]) fused
    with [unquoteBytes].  [skip] counts the continuation bytes of a
    well-formed UTF-8 sequence still to be copied.  The result is the
    unquoted text and the input after the closing quote. *)
Fixpoint scan_string (skip : nat) (s : string) : option (string * string) :=
  match s with
  | EmptyString => None
  | String c r =>
      match skip with
      | S k =>
          match scan_string k r with
          | Some (u, rest) => Some (String c u, rest)
          | None => None
          end
      | 0 =>
          if Ascii.eqb c dquote then Some (EmptyString, r)
          else if N.ltb (code c) 32 then None
          else if Ascii.eqb c backslash then
            match r with
            | EmptyString => None
            | String e r1 =>
                let simple (b : N) :=
                  match scan_string 0 r1 with
                  | Some (u, rest) => Some (String (chr b) u, rest)
                  | None => None
                  end in
                if Ascii.eqb e dquote then simple 34%N
                else if Ascii.eqb e backslash then simple 92%N
                else if Ascii.eqb e "/"%char then simple 47%N
                else if Ascii.eqb e "b"%char then simple 8%N
                else if Ascii.eqb e "f"%char then simple 12%N
                else if Ascii.eqb e "n"%char then simple 10%N
                else if Ascii.eqb e "r"%char then simple 13%N
                else if Ascii.eqb e "t"%char then simple 9%N
                else if Ascii.eqb e "u"%char then
                  match r1 with
                  | String h1 (String h2 (String h3 (String h4 r2))) =>
                      match getu4 h1 h2 h3 h4 with
                      | None => None
                      | Some rr =>
                          let single :=
                            match scan_string 0 r2 with
                            | Some (u, rest) => Some (EncodeRune rr +:+ u, rest)
                            | None => None
                            end in
                          match r2 with
                          | String _ (String _ (String g1 (String g2 (String g3 (String g4 r3))))) =>
                              match next_u4 r2 with
                              | Some (rr1, _) =>
                                  match utf16_pair rr rr1 with
                                  | Some dec =>
                                      match scan_string 0 r3 with
                                      | Some (u, rest) => Some (EncodeRune dec +:+ u, rest)
                                      | None => None
                                      end
                                  | None => single
                                  end
                              | None => single
                              end
                          | _ => single
                          end
                      end
                  | _ => None
                  end
                else None
            end
          else if N.ltb (code c) 128 then
            match scan_string 0 r with
            | Some (u, rest) => Some (String c u, rest)
            | None => None
            end
          else
            match utf8_seq_len c r with
            | 0 =>
                match scan_string 0 r with
                | Some (u, rest) => Some (EncodeRune replacementChar +:+ u, rest)
                | None => None
                end
            | S k =>
                match scan_string k r with
                | Some (u, rest) => Some (String c u, rest)
                | None => None
                end
            end
      end
  end.

(** A number literal, by the scanner's number states: an optional minus,
    [0] or a digit [1]-[9] followed by digits, an optional fraction and an
    optional exponent.  Returns the literal and the input after it. *)
Fixpoint span_digits (s : string) : string * string :=
  match s with
  | String c r =>
      if isDigit c then let '(d, rest) := span_digits r in (String c d, rest)
      else (EmptyString, s)
  | EmptyString => (EmptyString, s)
  end.

Definition scan_digits1 (s : string) : option (string * string) :=
  match span_digits s with
  | (EmptyString, _) => None
  | (d, rest) => Some (d, rest)
  end.

Definition scan_int (s : string) : option (string * string) :=
  match s with
  | String c r =>
      if Ascii.eqb c "0"%char then Some ("0", r)
      else if isDigit c then scan_digits1 s
      else None
  | EmptyString => None
  end.

Definition scan_frac (s : string) : option (string * string) :=
  match s with
  | String c r =>
      if Ascii.eqb c "."%char then
        match scan_digits1 r with
        | Some (d, rest) => Some (String c d, rest)
        | None => None
        end
      else Some (EmptyString, s)
  | EmptyString => Some (EmptyString, s)
  end.

Definition scan_exp (s : string) : option (string * string) :=
  match s with
  | String c r =>
      if (Ascii.eqb c "e"%char || Ascii.eqb c "E"%char)%bool then
        match r with
        | String sg r1 =>
            if (Ascii.eqb sg "+"%char || Ascii.eqb sg "-"%char)%bool then
              match scan_digits1 r1 with
              | Some (d, rest) => Some (String c (String sg d), rest)
              | None => None
              end
            else
              match scan_digits1 r with
              | Some (d, rest) => Some (String c d, rest)
              | None => None
              end
        | EmptyString => None
        end
      else Some (EmptyString, s)
  | EmptyString => Some (EmptyString, s)
  end.

Definition scan_number (s : string) : option (string * string) :=
  let '(sign, s1) :=
    match s with
    | String c r => if Ascii.eqb c "-"%char then ("-", r) else (EmptyString, s)
    | EmptyString => (EmptyString, s)
    end in
  match scan_int s1 with
  | None => None
  | Some (i, s2) =>
      match scan_frac s2 with
      | None => None
      | Some (f, s3) =>
          match scan_exp s3 with
          | None => None
          | Some (e, s4) => Some (sign +:+ i +:+ f +:+ e, s4)
          end
      end
  end.

(** [true], [false] and [null]: the input after the word [w]. *)
Fixpoint scan_word (w : string) (s : string) : option string :=
  match w with
  | EmptyString => Some s
  | String a w' =>
      match s with
      | String b s' => if Ascii.eqb a b then scan_word w' s' else None
      | EmptyString => None
      end
  end.

(** scanner.go, [maxNestingDepth]. *)
Definition maxNestingDepth : N := 10000.

(** The bytes of [s] before its suffix [rest]. *)
Definition consumed (s rest : string) : bytes :=
  String.substring 0 (String.length s - String.length rest) s.

(** One value at the head of [s] (white space already skipped), nested
    [depth] arrays and objects deep.  [fuel] bounds the recursion; twice
    the length of the input is enough for every input, since each second
    call has read at least one byte ([scan_value_fuel] below). *)
Fixpoint scan_value (fuel : nat) (depth : N) (s : string) : option (jvalue * string) :=
  match fuel with
  | 0 => None
  | S fuel' =>
      match s with
      | EmptyString => None
      | String c r =>
          if Ascii.eqb c "{"%char then
            if N.leb maxNestingDepth depth then None
            else
              match skip_ws r with
              | EmptyString => None
              | String c1 r1 =>
                  if Ascii.eqb c1 "}"%char then Some (JObject [], r1)
                  else
                    match scan_members fuel' (N.succ depth) (String c1 r1) with
                    | Some (ms, rest) => Some (JObject ms, rest)
                    | None => None
                    end
              end
          else if Ascii.eqb c "["%char then
            if N.leb maxNestingDepth depth then None
            else
              match skip_ws r with
              | EmptyString => None
              | String c1 r1 =>
                  if Ascii.eqb c1 "]"%char then Some (JArray [], r1)
                  else
                    match scan_elems fuel' (N.succ depth) (String c1 r1) with
                    | Some (vs, rest) => Some (JArray vs, rest)
                    | None => None
                    end
              end
          else if Ascii.eqb c dquote then
            match scan_string 0 r with
            | Some (u, rest) => Some (JString u, rest)
            | None => None
            end
          else if (Ascii.eqb c "-"%char || isDigit c)%bool then
            match scan_number s with
            | Some (lit, rest) => Some (JNumber lit, rest)
            | None => None
            end
          else if Ascii.eqb c "t"%char then
            match scan_word "true" s with Some rest => Some (JBool true, rest) | None => None end
          else if Ascii.eqb c "f"%char then
            match scan_word "false" s with Some rest => Some (JBool false, rest) | None => None end
          else if Ascii.eqb c "n"%char then
            match scan_word "null" s with Some rest => Some (JNull, rest) | None => None end
          else None
      end
  end

(** The elements of an array from its first value up to the closing
    bracket. *)
with scan_elems (fuel : nat) (depth : N) (s : string) : option (list jvalue * string) :=
  match fuel with
  | 0 => None
  | S fuel' =>
      match scan_value fuel' depth s with
      | None => None
      | Some (v, r) =>
          match skip_ws r with
          | EmptyString => None
          | String c r1 =>
              if Ascii.eqb c ","%char then
                match scan_elems fuel' depth (skip_ws r1) with
                | Some (vs, rest) => Some (v :: vs, rest)
                | None => None
                end
              else if Ascii.eqb c "]"%char then Some ([v], r1)
              else None
          end
      end
  end

(** The members of an object from its first key up to the closing brace;
    each member keeps the bytes of its value. *)
with scan_members (fuel : nat) (depth : N) (s : string)
  : option (list (string * (bytes * jvalue)) * string) :=
  match fuel with
  | 0 => None
  | S fuel' =>
      match s with
      | EmptyString => None
      | String c r =>
          if negb (Ascii.eqb c dquote) then None
          else
            match scan_string 0 r with
            | None => None
            | Some (key, r1) =>
                match skip_ws r1 with
                | EmptyString => None
                | String c2 r2 =>
                    if negb (Ascii.eqb c2 ":"%char) then None
                    else
                      let sv := skip_ws r2 in
                      match scan_value fuel' depth sv with
                      | None => None
                      | Some (v, r3) =>
                          let m := (key, (consumed sv r3, v)) in
                          match skip_ws r3 with
                          | EmptyString => None
                          | String c4 r4 =>
                              if Ascii.eqb c4 ","%char then
                                match scan_members fuel' depth (skip_ws r4) with
                                | Some (ms, rest) => Some (m :: ms, rest)
                                | None => None
                                end
                              else if Ascii.eqb c4 "}"%char then Some ([m], r4)
                              else None
                          end
                      end
                end
            end
      end
  end.

(** A whole JSON text: white space, one value, white space, end of
    input.  [None] is [checkValid]'s [*SyntaxError]. *)
Definition scan (data : bytes) : option jvalue :=
  let s := skip_ws data in
  match scan_value (2 * String.length data + 2) 0 s with
  | Some (v, rest) =>
      match skip_ws rest with
      | EmptyString => Some v
      | _ => None
      end
  | None => None
  end.

(** ** The platform

    What the package takes from the Go runtime and the standard library
    and this development does not fix: binary floating point, [time.Time]
    and its RFC 3339 reader, the URL parser behind [http.NewRequest]. *)

Class Platform : Type := {
  (** [float64] and its zero value *)
  float64 : Type;
  float64_zero : float64;
  (** [strconv.ParseFloat(lit, 64)] on a JSON number literal; [None] is
      its range error. *)
  strconv_ParseFloat : string -> option float64;
  (** [time.Time] and its zero value *)
  time_Time : Type;
  time_zero : time_Time;
  (** [UnmarshalJSON(data)] of [time.Time] on the receiver's old value;
      [None] is its error. *)
  time_UnmarshalJSON : bytes -> time_Time -> option time_Time;
  (** [url.Parse(rawURL)]: the message of its error, if it fails. *)
  url_Parse_error : string -> option string
}.

(** ** The data model *)

(** Package [postalclient], [Response]. *)
Record Response `{Platform} : Type := {
  Status : string;
  Time : float64;
  Flags : bytes;
  Data : bytes
}.

(** Package [postalclient], [Error]. *)
Record Error `{Platform} : Type := {
  Error_Status : string;
  Error_Time : float64;
  Error_Flags : bytes;
  Error_Data : bytes;
  ErrorCode : string;
  Message : string
}.

(** Package [models]. *)
Module models.

(** models/message.go, [MessageStatus] and [MessageDetails]: structs
  without fields. *)
Record MessageStatus : Type := {}.
Record MessageDetails : Type := {}.

(** models/message.go, [Attachment]. *)
Record Attachment : Type := {
Name : string;
ContentType : string;
Attachment_Data : string;
Size : Z
}.

(** models/message.go, [Message]. *)
Record Message : Type := {
Message_ID : Z;
Message_Token : string;
Message_Status : option MessageStatus;
Message_Details : option MessageDetails;
Inspection : bytes;
Message_PlainBody : string;
Message_HTMLBody : string;
Message_Attachments : list Attachment;
Message_Headers : gmap string string;
RawMessage : string
}.

(** models/message.go, [Delivery]. *)
Record Delivery `{Platform} : Type := {
Delivery_ID : Z;
Delivery_Status : string;
Delivery_Details : string;
Output : string;
SentWithSSL : bool;
LogID : Z;
Delivery_Time : float64;
Timestamp : time_Time
}.

(** Package [models], [SendMessageRequest]. *)
Record SendMessageRequest : Type := {
To : list string;
CC : list string;
BCC : list string;
From : string;
Sender : string;
Subject : string;
Tag : string;
ReplyTo : string;
PlainBody : string;
HTMLBody : string;
Attachments : list Attachment;
Headers : gmap string string;
Bounce : bool
}.

(** Package [models], [SendRawRequest]. *)
Record SendRawRequest : Type := {
MailFrom : string;
RcptTo : list string;
SendRaw_Data : string;
SendRaw_Bounce : bool
}.

(** Package [models], [SendMessageResponse]. *)
Record SendMessageResponse : Type := {
MessageID : Z;
Token : string
}.

End models.

(** ** Errors

    Go's [error] values, as far as the package makes or passes them. *)

(** The errors of [json.Unmarshal]: [*SyntaxError] from [checkValid], and
    the errors of decoding a valid text into the target
    ([*UnmarshalTypeError], or what an [Unmarshaler] returned). *)
Inductive json_error : Type :=
| SyntaxError
| UnmarshalError.

Inductive error `{Platform} : Type :=
| errorString (msg : string)
    (** an error made outside the package: net/http, net/url, io,
        the JSON encoder *)
| jsonError (e : json_error)
| Errorf (msg : string) (err : error)
    (** [fmt.Errorf(msg + ": %w", err)] *)
| apiError (e : Error).
    (** a [*Error] *)

(** A Go result pair [(T, error)]: either the error is nil and the value
    counts, or there is an error and the value is nil.  Every [return] of
    [do] and of the four methods is of one of these two forms. *)
Inductive result `{Platform} (A : Type) : Type :=
| Ok (a : A)
| Err (e : error).

Arguments Ok {_ _} a.
Arguments Err {_ _} e.

(** Package [postalclient], the method [Error] of [Error]. *)
Definition Error_Error `{Platform} (e : Error) : string :=
  "postal API error: " +:+ Error_Status e +:+ " - " +:+ Message e.

(** ** encoding/json: decoding into Go values

    A decoder takes the JSON value and the old Go value and gives the new
    one, or [None] when the value does not fit the Go type.  Whether it
    fits never depends on the old value. *)

(** strconv, [ParseInt(lit, 10, 64)] on a JSON number literal; Go's [int]
    is taken to be 64 bits wide. *)
Fixpoint digits_value (acc : Z) (s : string) : option Z :=
  match s with
  | EmptyString => Some acc
  | String c r =>
      if isDigit c then digits_value (acc * 10 + Z.of_N (code c - 48)) r
      else None
  end.

Definition ParseInt (lit : string) : option Z :=
  let '(neg, ds) :=
    match lit with
    | String c r => if Ascii.eqb c "-"%char then (true, r) else (false, lit)
    | EmptyString => (false, lit)
    end in
  match ds with
  | EmptyString => None
  | _ =>
      match digits_value 0 ds with
      | None => None
      | Some n =>
          let v := if neg then (- n)%Z else n in
          if (Z.leb (- 2 ^ 63) v && Z.leb v (2 ^ 63 - 1))%bool then Some v else None
      end
  end.

Definition dec_string (v : jvalue) (old : string) : option string :=
  match v with
  | JString s => Some s
  | JNull => Some old
  | _ => None
  end.

Definition dec_int (v : jvalue) (old : Z) : option Z :=
  match v with
  | JNumber lit => ParseInt lit
  | JNull => Some old
  | _ => None
  end.

Definition dec_bool (v : jvalue) (old : bool) : option bool :=
  match v with
  | JBool b => Some b
  | JNull => Some old
  | _ => None
  end.

Definition dec_float64 `{Platform} (v : jvalue) (old : float64) : option float64 :=
  match v with
  | JNumber lit => strconv_ParseFloat lit
  | JNull => Some old
  | _ => None
  end.

(** A slice: the elements already there are decoded into, further ones
    start from the zero value; [null] gives the nil slice. *)
Fixpoint dec_elems {T : Type} (zero : T) (dec : jvalue -> T -> option T)
    (vs : list jvalue) (old : list T) : option (list T) :=
  match vs with
  | [] => Some []
  | v :: vs' =>
      let '(o, old') := match old with o :: old' => (o, old') | [] => (zero, []) end in
      match dec v o with
      | None => None
      | Some x =>
          match dec_elems zero dec vs' old' with
          | None => None
          | Some xs => Some (x :: xs)
          end
      end
  end.

Definition dec_slice {T : Type} (zero : T) (dec : jvalue -> T -> option T)
    (v : jvalue) (old : list T) : option (list T) :=
  match v with
  | JArray vs => dec_elems zero dec vs old
  | JNull => Some []
  | _ => None
  end.

(** A [map[string]string]: every member is decoded into a fresh element
    and stored under its key; [null] gives the nil map. *)
Fixpoint dec_map_members (ms : list (string * (bytes * jvalue)))
    (old : gmap string string) : option (gmap string string) :=
  match ms with
  | [] => Some old
  | (k, (_, v)) :: ms' =>
      match dec_string v EmptyString with
      | None => None
      | Some s => dec_map_members ms' (<[k := s]> old)
      end
  end.

Definition dec_map (v : jvalue) (old : gmap string string) : option (gmap string string) :=
  match v with
  | JObject ms => dec_map_members ms old
  | JNull => Some ∅
  | _ => None
  end.

(** decode.go / fold.go, [foldName], as far as it decides equality with
    an ASCII field name: ASCII letters go to upper case, and the only
    other runes that fold to an ASCII letter are U+017F (to [S]) and
    U+212A (to [K]). *)
Fixpoint foldName (s : string) : string :=
  match s with
  | EmptyString => EmptyString
  | String c r =>
      if in_range 97 122 c then String (chr (code c - 32)) (foldName r)
      else
        match r with
        | String c1 r1 =>
            if (N.eqb (code c) 197 && N.eqb (code c1) 191)%bool
            then String "S"%char (foldName r1)
            else
              match r1 with
              | String c2 r2 =>
                  if (N.eqb (code c) 226 && N.eqb (code c1) 132 && N.eqb (code c2) 170)%bool
                  then String "K"%char (foldName r2)
                  else String c (foldName r)
              | EmptyString => String c (foldName r)
              end
        | EmptyString => String c (foldName r)
        end
  end.

(** The fields of a struct type [T] the decoder knows: the JSON name and
    how a member's bytes and value are stored into the field. *)
Definition setter (T : Type) : Type := bytes -> jvalue -> T -> option T.

Definition field_table (T : Type) : Type := list (string * setter T).

Fixpoint byExactName {T : Type} (fields : field_table T) (key : string) : option (setter T) :=
  match fields with
  | [] => None
  | (name, set) :: fields' =>
      if String.eqb name key then Some set else byExactName fields' key
  end.

Fixpoint byFoldedName {T : Type} (fields : field_table T) (key : string) : option (setter T) :=
  match fields with
  | [] => None
  | (name, set) :: fields' =>
      if String.eqb (foldName name) key then Some set else byFoldedName fields' key
  end.

Definition find_field {T : Type} (fields : field_table T) (key : string) : option (setter T) :=
  match byExactName fields key with
  | Some set => Some set
  | None => byFoldedName fields (foldName key)
  end.

(** decode.go, [decodeState.object] on a struct: the members are
    stored one after the other, members without a field are skipped. *)
Fixpoint dec_members {T : Type} (fields : field_table T)
    (ms : list (string * (bytes * jvalue))) (x : T) : option T :=
  match ms with
  | [] => Some x
  | (key, (raw, v)) :: ms' =>
      match find_field fields key with
      | None => dec_members fields ms' x
      | Some set =>
          match set raw v x with
          | None => None
          | Some x' => dec_members fields ms' x'
          end
      end
  end.

Definition dec_struct {T : Type} (fields : field_table T) (v : jvalue) (old : T) : option T :=
  match v with
  | JObject ms => dec_members fields ms old
  | JNull => Some old
  | _ => None
  end.

(** A pointer to a struct: [null] gives nil, an object is decoded into
    the struct pointed to (a new one if the pointer was nil). *)
Definition dec_ptr {T : Type} (zero : T) (fields : field_table T)
    (v : jvalue) (old : option T) : option (option T) :=
  match v with
  | JNull => Some None
  | _ =>
      match dec_struct fields v (default zero old) with
      | Some x => Some (Some x)
      | None => None
      end
  end.

(** decode.go, [Unmarshal]: [checkValid], then the value is decoded into
    the target. *)
Definition Unmarshal {T : Type} (dec : jvalue -> T -> option T) (data : bytes) (old : T)
  : json_error + T :=
  match scan data with
  | None => inl SyntaxError
  | Some v =>
      match dec v old with
      | None => inl UnmarshalError
      | Some x => inr x
      end
  end.

(** A field of kind [A] inside the struct [T], and a field that takes the
    member's bytes as they are ([json.RawMessage]). *)
Definition field {T A : Type} (dec : jvalue -> A -> option A)
    (get : T -> A) (put : A -> T -> T) : setter T :=
  fun _ v x =>
    match dec v (get x) with
    | Some a => Some (put a x)
    | None => None
    end.

Definition raw_field {T : Type} (put : bytes -> T -> T) : setter T :=
  fun raw _ x => Some (put raw x).

Section Targets.
Context `{Platform}.

Definition Response_zero : Response :=
  {| Status := EmptyString; Time := float64_zero; Flags := EmptyString; Data := EmptyString |}.

Definition Response_fields : field_table Response :=
  [ ("status", field dec_string Status
       (fun a x => {| Status := a; Time := Time x; Flags := Flags x; Data := Data x |}));
    ("time", field dec_float64 Time
       (fun a x => {| Status := Status x; Time := a; Flags := Flags x; Data := Data x |}));
    ("flags", raw_field
       (fun a x => {| Status := Status x; Time := Time x; Flags := a; Data := Data x |}));
    ("data", raw_field
       (fun a x => {| Status := Status x; Time := Time x; Flags := Flags x; Data := a |})) ].

Definition Error_zero : Error :=
  {| Error_Status := EmptyString; Error_Time := float64_zero; Error_Flags := EmptyString;
     Error_Data := EmptyString; ErrorCode := EmptyString; Message := EmptyString |}.

Definition Error_fields : field_table Error :=
  [ ("status", field dec_string Error_Status
       (fun a x => {| Error_Status := a; Error_Time := Error_Time x;
                      Error_Flags := Error_Flags x; Error_Data := Error_Data x;
                      ErrorCode := ErrorCode x; Message := Message x |}));
    ("time", field dec_float64 Error_Time
       (fun a x => {| Error_Status := Error_Status x; Error_Time := a;
                      Error_Flags := Error_Flags x; Error_Data := Error_Data x;
                      ErrorCode := ErrorCode x; Message := Message x |}));
    ("flags", raw_field
       (fun a x => {| Error_Status := Error_Status x; Error_Time := Error_Time x;
                      Error_Flags := a; Error_Data := Error_Data x;
                      ErrorCode := ErrorCode x; Message := Message x |}));
    ("data", raw_field
       (fun a x => {| Error_Status := Error_Status x; Error_Time := Error_Time x;
                      Error_Flags := Error_Flags x; Error_Data := a;
                      ErrorCode := ErrorCode x; Message := Message x |}));
    ("error_code", field dec_string ErrorCode
       (fun a x => {| Error_Status := Error_Status x; Error_Time := Error_Time x;
                      Error_Flags := Error_Flags x; Error_Data := Error_Data x;
                      ErrorCode := a; Message := Message x |}));
    ("message", field dec_string Message
       (fun a x => {| Error_Status := Error_Status x; Error_Time := Error_Time x;
                      Error_Flags := Error_Flags x; Error_Data := Error_Data x;
                      ErrorCode := ErrorCode x; Message := a |})) ].

(** [json.Unmarshal(data, &v)] for a fresh [v] of each type the package
    decodes into. *)
Definition Unmarshal_Response (data : bytes) : json_error + Response :=
  Unmarshal (dec_struct Response_fields) data Response_zero.

Definition Unmarshal_Error (data : bytes) : json_error + Error :=
  Unmarshal (dec_struct Error_fields) data Error_zero.

Import models.

Definition SendMessageResponse_zero : SendMessageResponse :=
  {| MessageID := 0; Token := EmptyString |}.

Definition SendMessageResponse_fields : field_table SendMessageResponse :=
  [ ("message_id", field dec_int MessageID
       (fun a x => {| MessageID := a; Token := Token x |}));
    ("token", field dec_string Token
       (fun a x => {| MessageID := MessageID x; Token := a |})) ].

Definition Unmarshal_SendMessageResponse (data : bytes) : json_error + SendMessageResponse :=
  Unmarshal (dec_struct SendMessageResponse_fields) data SendMessageResponse_zero.

Definition Attachment_zero : Attachment :=
  {| Name := EmptyString; ContentType := EmptyString; Attachment_Data := EmptyString; Size := 0 |}.

Definition Attachment_fields : field_table Attachment :=
  [ ("name", field dec_string Name
       (fun a x => {| Name := a; ContentType := ContentType x;
                      Attachment_Data := Attachment_Data x; Size := Size x |}));
    ("content_type", field dec_string ContentType
       (fun a x => {| Name := Name x; ContentType := a;
                      Attachment_Data := Attachment_Data x; Size := Size x |}));
    ("data", field dec_string Attachment_Data
       (fun a x => {| Name := Name x; ContentType := ContentType x;
                      Attachment_Data := a; Size := Size x |}));
    ("size", field dec_int Size
       (fun a x => {| Name := Name x; ContentType := ContentType x;
                      Attachment_Data := Attachment_Data x; Size := a |})) ].

Definition Message_zero : Message :=
  {| Message_ID := 0; Message_Token := EmptyString; Message_Status := None;
     Message_Details := None; Inspection := EmptyString; Message_PlainBody := EmptyString;
     Message_HTMLBody := EmptyString; Message_Attachments := []; Message_Headers := ∅;
     RawMessage := EmptyString |}.

Definition Message_fields : field_table Message :=
  [ ("id", field dec_int Message_ID
       (fun a x => {| Message_ID := a; Message_Token := Message_Token x;
                      Message_Status := Message_Status x; Message_Details := Message_Details x;
                      Inspection := Inspection x; Message_PlainBody := Message_PlainBody x;
                      Message_HTMLBody := Message_HTMLBody x;
                      Message_Attachments := Message_Attachments x;
                      Message_Headers := Message_Headers x; RawMessage := RawMessage x |}));
    ("token", field dec_string Message_Token
       (fun a x => {| Message_ID := Message_ID x; Message_Token := a;
                      Message_Status := Message_Status x; Message_Details := Message_Details x;
                      Inspection := Inspection x; Message_PlainBody := Message_PlainBody x;
                      Message_HTMLBody := Message_HTMLBody x;
                      Message_Attachments := Message_Attachments x;
                      Message_Headers := Message_Headers x; RawMessage := RawMessage x |}));
    ("status", field (dec_ptr Build_MessageStatus []) Message_Status
       (fun a x => {| Message_ID := Message_ID x; Message_Token := Message_Token x;
                      Message_Status := a; Message_Details := Message_Details x;
                      Inspection := Inspection x; Message_PlainBody := Message_PlainBody x;
                      Message_HTMLBody := Message_HTMLBody x;
                      Message_Attachments := Message_Attachments x;
                      Message_Headers := Message_Headers x; RawMessage := RawMessage x |}));
    ("details", field (dec_ptr Build_MessageDetails []) Message_Details
       (fun a x => {| Message_ID := Message_ID x; Message_Token := Message_Token x;
                      Message_Status := Message_Status x; Message_Details := a;
                      Inspection := Inspection x; Message_PlainBody := Message_PlainBody x;
                      Message_HTMLBody := Message_HTMLBody x;
                      Message_Attachments := Message_Attachments x;
                      Message_Headers := Message_Headers x; RawMessage := RawMessage x |}));
    ("inspection", raw_field
       (fun a x => {| Message_ID := Message_ID x; Message_Token := Message_Token x;
                      Message_Status := Message_Status x; Message_Details := Message_Details x;
                      Inspection := a; Message_PlainBody := Message_PlainBody x;
                      Message_HTMLBody := Message_HTMLBody x;
                      Message_Attachments := Message_Attachments x;
                      Message_Headers := Message_Headers x; RawMessage := RawMessage x |}));
    ("plain_body", field dec_string Message_PlainBody
       (fun a x => {| Message_ID := Message_ID x; Message_Token := Message_Token x;
                      Message_Status := Message_Status x; Message_Details := Message_Details x;
                      Inspection := Inspection x; Message_PlainBody := a;
                      Message_HTMLBody := Message_HTMLBody x;
                      Message_Attachments := Message_Attachments x;
                      Message_Headers := Message_Headers x; RawMessage := RawMessage x |}));
    ("html_body", field dec_string Message_HTMLBody
       (fun a x => {| Message_ID := Message_ID x; Message_Token := Message_Token x;
                      Message_Status := Message_Status x; Message_Details := Message_Details x;
                      Inspection := Inspection x; Message_PlainBody := Message_PlainBody x;
                      Message_HTMLBody := a;
                      Message_Attachments := Message_Attachments x;
                      Message_Headers := Message_Headers x; RawMessage := RawMessage x |}));
    ("attachments", field (dec_slice Attachment_zero (dec_struct Attachment_fields))
       Message_Attachments
       (fun a x => {| Message_ID := Message_ID x; Message_Token := Message_Token x;
                      Message_Status := Message_Status x; Message_Details := Message_Details x;
                      Inspection := Inspection x; Message_PlainBody := Message_PlainBody x;
                      Message_HTMLBody := Message_HTMLBody x;
                      Message_Attachments := a;
                      Message_Headers := Message_Headers x; RawMessage := RawMessage x |}));
    ("headers", field dec_map Message_Headers
       (fun a x => {| Message_ID := Message_ID x; Message_Token := Message_Token x;
                      Message_Status := Message_Status x; Message_Details := Message_Details x;
                      Inspection := Inspection x; Message_PlainBody := Message_PlainBody x;
                      Message_HTMLBody := Message_HTMLBody x;
                      Message_Attachments := Message_Attachments x;
                      Message_Headers := a; RawMessage := RawMessage x |}));
    ("raw_message", field dec_string RawMessage
       (fun a x => {| Message_ID := Message_ID x; Message_Token := Message_Token x;
                      Message_Status := Message_Status x; Message_Details := Message_Details x;
                      Inspection := Inspection x; Message_PlainBody := Message_PlainBody x;
                      Message_HTMLBody := Message_HTMLBody x;
                      Message_Attachments := Message_Attachments x;
                      Message_Headers := Message_Headers x; RawMessage := a |})) ].

Definition Unmarshal_Message (data : bytes) : json_error + Message :=
  Unmarshal (dec_struct Message_fields) data Message_zero.

Definition Delivery_zero : Delivery :=
  {| Delivery_ID := 0; Delivery_Status := EmptyString; Delivery_Details := EmptyString; Output := EmptyString;
     SentWithSSL := false; LogID := 0; Delivery_Time := float64_zero;
     Timestamp := time_zero |}.

Definition Delivery_fields : field_table Delivery :=
  [ ("id", field dec_int Delivery_ID
       (fun a x => {| Delivery_ID := a; Delivery_Status := Delivery_Status x;
                      Delivery_Details := Delivery_Details x; Output := Output x;
                      SentWithSSL := SentWithSSL x; LogID := LogID x;
                      Delivery_Time := Delivery_Time x; Timestamp := Timestamp x |}));
    ("status", field dec_string Delivery_Status
       (fun a x => {| Delivery_ID := Delivery_ID x; Delivery_Status := a;
                      Delivery_Details := Delivery_Details x; Output := Output x;
                      SentWithSSL := SentWithSSL x; LogID := LogID x;
                      Delivery_Time := Delivery_Time x; Timestamp := Timestamp x |}));
    ("details", field dec_string Delivery_Details
       (fun a x => {| Delivery_ID := Delivery_ID x; Delivery_Status := Delivery_Status x;
                      Delivery_Details := a; Output := Output x;
                      SentWithSSL := SentWithSSL x; LogID := LogID x;
                      Delivery_Time := Delivery_Time x; Timestamp := Timestamp x |}));
    ("output", field dec_string Output
       (fun a x => {| Delivery_ID := Delivery_ID x; Delivery_Status := Delivery_Status x;
                      Delivery_Details := Delivery_Details x; Output := a;
                      SentWithSSL := SentWithSSL x; LogID := LogID x;
                      Delivery_Time := Delivery_Time x; Timestamp := Timestamp x |}));
    ("sent_with_ssl", field dec_bool SentWithSSL
       (fun a x => {| Delivery_ID := Delivery_ID x; Delivery_Status := Delivery_Status x;
                      Delivery_Details := Delivery_Details x; Output := Output x;
                      SentWithSSL := a; LogID := LogID x;
                      Delivery_Time := Delivery_Time x; Timestamp := Timestamp x |}));
    ("log_id", field dec_int LogID
       (fun a x => {| Delivery_ID := Delivery_ID x; Delivery_Status := Delivery_Status x;
                      Delivery_Details := Delivery_Details x; Output := Output x;
                      SentWithSSL := SentWithSSL x; LogID := a;
                      Delivery_Time := Delivery_Time x; Timestamp := Timestamp x |}));
    ("time", field dec_float64 Delivery_Time
       (fun a x => {| Delivery_ID := Delivery_ID x; Delivery_Status := Delivery_Status x;
                      Delivery_Details := Delivery_Details x; Output := Output x;
                      SentWithSSL := SentWithSSL x; LogID := LogID x;
                      Delivery_Time := a; Timestamp := Timestamp x |}));
    ("timestamp",
       (fun raw _ x =>
          match time_UnmarshalJSON raw (Timestamp x) with
          | Some t =>
              Some {| Delivery_ID := Delivery_ID x; Delivery_Status := Delivery_Status x;
                      Delivery_Details := Delivery_Details x; Output := Output x;
                      SentWithSSL := SentWithSSL x; LogID := LogID x;
                      Delivery_Time := Delivery_Time x; Timestamp := t |}
          | None => None
          end)) ].

Definition Unmarshal_Deliveries (data : bytes) : json_error + list Delivery :=
  Unmarshal (dec_slice Delivery_zero (dec_struct Delivery_fields)) data [].

End Targets.

(** ** net/http: requests, headers, clients *)

(** The header field bytes ([tchar] of RFC 7230), which are also the bytes
    of a valid method. *)
Definition isTokenByte (c : ascii) : bool :=
  (isDigit c || in_range 65 90 c || in_range 97 122 c
   || existsb (Ascii.eqb c)
        ["!"; "#"; "$"; "%"; "&"; "'"; "*"; "+"; "-"; "."; "^"; "_"; "`"; "|"; "~"]%char)%bool.

Fixpoint all_bytes (p : ascii -> bool) (s : string) : bool :=
  match s with
  | EmptyString => true
  | String c r => (p c && all_bytes p r)%bool
  end.

(** net/textproto, [CanonicalMIMEHeaderKey]: a key of token bytes gets an
    upper-case letter first and after every hyphen and lower-case letters
    elsewhere; any other key is left as it is. *)
Fixpoint canonical (upper : bool) (s : string) : string :=
  match s with
  | EmptyString => EmptyString
  | String c r =>
      let c' :=
        if (upper && in_range 97 122 c)%bool then chr (code c - 32)
        else if (negb upper && in_range 65 90 c)%bool then chr (code c + 32)
        else c in
      String c' (canonical (Ascii.eqb c' "-"%char) r)
  end.

Definition CanonicalMIMEHeaderKey (s : string) : string :=
  if all_bytes isTokenByte s then canonical true s else s.

(** [http.Header], with its methods [Set] and [Get]. *)
Abbreviation Header := (gmap string (list string)).

Definition Header_Set (key value : string) (h : Header) : Header :=
  <[CanonicalMIMEHeaderKey key := [value]]> h.

Definition Header_Get (key : string) (h : Header) : string :=
  match h !! CanonicalMIMEHeaderKey key with
  | Some (v :: _) => v
  | _ => EmptyString
  end.

(** [http.Request]: what [http.NewRequest] fills in and [do] sets. *)
Record Request : Type := {
  Method : string;
  URL : string;
  Req_Header : Header;
  Body : option bytes
}.

Definition MethodPost : string := "POST".
Definition StatusOK : Z := 200.

Section Http.
Context `{Platform}.

(** [http.Response]: the status code, and what [io.ReadAll] gives on
    the body. *)
Record HTTPResponse : Type := {
  StatusCode : Z;
  ReadAll : result bytes
}.

(** [http.Client]: its timeout, and what [Do] answers to a request
    after the requests sent before it.  The answer is the network's and
    the server's doing; they have no hold of the [Client] that owns the
    [http.Client]. *)
Record http_Client : Type := {
  Timeout : Z;
  Do : list Request -> Request -> result HTTPResponse
}.

(** Package [postalclient], [Client]. *)
Record Client : Type := {
  BaseURL : string;
  APIKey : string;
  HTTPClient : http_Client
}.

(** [http.NewRequest(method, url, body)]. *)
Definition validMethod (method : string) : bool :=
  (negb (String.eqb method EmptyString) && all_bytes isTokenByte method)%bool.

Definition NewRequest (method url : string) (body : option bytes) : result Request :=
  let method := if String.eqb method EmptyString then "GET" else method in
  if negb (validMethod method) then Err (errorString "net/http: invalid method")
  else
    match url_Parse_error url with
    | Some msg => Err (errorString msg)
    | None => Ok {| Method := method; URL := url; Req_Header := ∅; Body := body |}
    end.

Definition set_header (key value : string) (req : Request) : Request :=
  {| Method := Method req; URL := URL req;
     Req_Header := Header_Set key value (Req_Header req); Body := Body req |}.

(** [json.Marshal] on the static type of a request body. *)
Class Marshaler (A : Type) : Type := json_Marshal : A -> result bytes.

(** ** The state

    The methods have a pointer receiver: the client lives in the store.
    Next to it the store keeps the requests handed to the HTTP client
    so far, oldest first. *)
Record Store : Type := {
  client : Client;
  sent : list Request
}.

Definition M (A : Type) : Type := Store -> A * Store.

Definition ret {A : Type} (a : A) : M A := fun s => (a, s).

Definition bind {A B : Type} (m : M A) (k : A -> M B) : M B :=
  fun s => let '(a, s') := m s in k a s'.

(** Reading a field of the receiver. *)
Definition load {A : Type} (f : Client -> A) : M A := fun s => (f (client s), s).

(** [c.HTTPClient.Do(req)]. *)
Definition HTTPClient_Do (req : Request) : M (result HTTPResponse) :=
  fun s =>
    (Do (HTTPClient (client s)) (sent s) req,
     {| client := client s; sent := sent s ++ [req] |}).

End Http.

#[export] Instance M_ret `{Platform} : MRet M := @ret _.
#[export] Instance M_bind `{Platform} : MBind M := fun A B k m => bind m k.

(** The rest of the standard library the package stands on: the JSON
    encoder on the request types (it has no error on them), and the
    transport of an [http.Client] made without one. *)
Class Environment `{Platform} : Type := {
  encode_SendMessageRequest : option models.SendMessageRequest -> bytes;
  encode_SendRawRequest : option models.SendRawRequest -> bytes;
  encode_map : gmap string Z -> bytes;
  DefaultTransport : list Request -> Request -> result HTTPResponse
}.

Section Client.
Context `{Environment}.

#[export] Instance Marshal_SendMessageRequest : Marshaler (option models.SendMessageRequest) :=
  fun req => Ok (encode_SendMessageRequest req).

#[export] Instance Marshal_SendRawRequest : Marshaler (option models.SendRawRequest) :=
  fun req => Ok (encode_SendRawRequest req).

#[export] Instance Marshal_map : Marshaler (gmap string Z) :=
  fun m => Ok (encode_map m).

(** Package [postalclient], the defaults and the constructors. *)
Definition DefaultBaseURL : string := "https://postal.example.com/api/v1".

Definition DefaultTimeout : Z := 30 * 1000000000.

Definition NewClient (apiKey : string) : Client :=
  {| BaseURL := DefaultBaseURL; APIKey := apiKey;
     HTTPClient := {| Timeout := DefaultTimeout; Do := DefaultTransport |} |}.

Definition NewClientWithOptions (apiKey baseURL : string) (timeout : Z) : Client :=
  {| BaseURL := baseURL; APIKey := apiKey;
     HTTPClient := {| Timeout := timeout; Do := DefaultTransport |} |}.

(** Package [postalclient], [Client.do]. *)
Definition marshal_body {A : Type} `{!Marshaler A} (body : option A) : result (option bytes) :=
  match body with
  | None => Ok None
  | Some b =>
      match json_Marshal b with
      | Err err => Err (Errorf "error marshaling request body" err)
      | Ok bodyBytes => Ok (Some bodyBytes)
      end
  end.

(** The part of [do] after the response body has been read. *)
Definition parse_response (statusCode : Z) (respBody : bytes) : result Response :=
  if negb (Z.eqb statusCode StatusOK) then
    match Unmarshal_Error respBody with
    | inl err => Err (Errorf "error unmarshaling error response" (jsonError err))
    | inr apiErr => Err (apiError apiErr)
    end
  else
    match Unmarshal_Response respBody with
    | inl err => Err (Errorf "error unmarshaling response" (jsonError err))
    | inr apiResp =>
        if negb (String.eqb (Status apiResp) "success") then
          match Unmarshal_Error respBody with
          | inl err => Err (Errorf "error unmarshaling error response" (jsonError err))
          | inr apiErr => Err (apiError apiErr)
          end
        else Ok apiResp
    end.

Definition do {A : Type} `{!Marshaler A} (method path : string) (body : option A)
  : M (result Response) :=
  baseURL ← load BaseURL;
  let url := baseURL +:+ path in
  match marshal_body body with
  | Err err => mret (Err err)
  | Ok bodyReader =>
      match NewRequest method url bodyReader with
      | Err err => mret (Err (Errorf "error creating request" err))
      | Ok req =>
          let req := set_header "Content-Type" "application/json" req in
          let req := set_header "Accept" "application/json" req in
          apiKey ← load APIKey;
          let req := set_header "X-Server-API-Key" apiKey req in
          r ← HTTPClient_Do req;
          match r with
          | Err err => mret (Err (Errorf "error performing request" err))
          | Ok resp =>
              match ReadAll resp with
              | Err err => mret (Err (Errorf "error reading response body" err))
              | Ok respBody => mret (parse_response (StatusCode resp) respBody)
              end
          end
      end
  end.

(** Package [postalclient], [Client.post]. *)
Definition post {A : Type} `{!Marshaler A} (path : string) (body : option A)
  : M (result Response) :=
  do MethodPost path body.

(** Package [postalclient], [Client.GetMessage]. *)
Definition GetMessage (id : Z) : M (result models.Message) :=
  let body : gmap string Z := {[ "id" := id ]} in
  r ← post "/messages/message" (Some body);
  match r with
  | Err err => mret (Err err)
  | Ok resp =>
      match Unmarshal_Message (Data resp) with
      | inl err => mret (Err (Errorf "error unmarshaling response" (jsonError err)))
      | inr message => mret (Ok message)
      end
  end.

(** Package [postalclient], [Client.GetMessageDeliveries]. *)
Definition GetMessageDeliveries (id : Z) : M (result (list models.Delivery)) :=
  let body : gmap string Z := {[ "id" := id ]} in
  r ← post "/messages/deliveries" (Some body);
  match r with
  | Err err => mret (Err err)
  | Ok resp =>
      match Unmarshal_Deliveries (Data resp) with
      | inl err => mret (Err (Errorf "error unmarshaling response" (jsonError err)))
      | inr deliveries => mret (Ok deliveries)
      end
  end.

(** Package [postalclient], [Client.SendMessage].  The request is a
    pointer, [None] when it is nil; as the [body] of [post] it is an
    interface value that is never nil. *)
Definition SendMessage (req : option models.SendMessageRequest)
  : M (result models.SendMessageResponse) :=
  r ← post "/send/message" (Some req);
  match r with
  | Err err => mret (Err err)
  | Ok resp =>
      match Unmarshal_SendMessageResponse (Data resp) with
      | inl err => mret (Err (Errorf "error unmarshaling send response" (jsonError err)))
      | inr sendResp => mret (Ok sendResp)
      end
  end.

(** Package [postalclient], [Client.SendRaw]. *)
Definition SendRaw (req : option models.SendRawRequest)
  : M (result models.SendMessageResponse) :=
  r ← post "/send/raw" (Some req);
  match r with
  | Err err => mret (Err err)
  | Ok resp =>
      match Unmarshal_SendMessageResponse (Data resp) with
      | inl err => mret (Err (Errorf "error unmarshaling send response" (jsonError err)))
      | inr sendResp => mret (Ok sendResp)
      end
  end.

End Client.

(** ** What the statements speak of *)

(** [rest] is what is left of [s] after some bytes have been read. *)
Inductive Suffix (rest : string) : string -> Prop :=
| Suffix_here : Suffix rest rest
| Suffix_skip c s : Suffix rest s -> Suffix rest (String c s).

(** [raw] stands in [s] byte for byte. *)
Definition Occurs (raw s : string) : Prop :=
  exists pre post, s = pre +:+ raw +:+ post.

Definition members_Occur (ms : list (string * (bytes * jvalue))) (s : string) : Prop :=
  Forall (fun m => Occurs m.2.1 s) ms.

Definition object_Occurs (v : jvalue) (s : string) : Prop :=
  match v with
  | JObject ms => members_Occur ms s
  | _ => True
  end.

(** The envelope as the JSON text has it.  A member belongs to the field
    [name] when its key is [name] up to the case of the letters; of
    several such members the last one counts. *)
Definition names (name key : string) : bool :=
  String.eqb (foldName name) (foldName key).

Fixpoint last_raw (name : string) (ms : list (string * (bytes * jvalue))) (d : bytes) : bytes :=
  match ms with
  | [] => d
  | (key, (raw, _)) :: ms' => last_raw name ms' (if names name key then raw else d)
  end.

Fixpoint last_string (name : string) (ms : list (string * (bytes * jvalue))) (d : string) : string :=
  match ms with
  | [] => d
  | (key, (_, v)) :: ms' =>
      last_string name ms'
        (if names name key then match v with JString s => s | _ => d end else d)
  end.

(** The bytes of the envelope's [data] member. *)
Definition envelope_data (body : bytes) : bytes :=
  match scan body with
  | Some (JObject ms) => last_raw "data" ms EmptyString
  | _ => EmptyString
  end.

(** The text of the envelope's [message] member. *)
Definition envelope_message (body : bytes) : string :=
  match scan body with
  | Some (JObject ms) => last_string "message" ms EmptyString
  | _ => EmptyString
  end.

(** The requests a computation hands to the HTTP client when run from
    the store [s]. *)
Definition issued `{Platform} {X : Type} (m : M X) (s : Store) : list Request :=
  drop (List.length (sent s)) (sent (m s).2).

Section Calls.
Context `{Environment}.

(** The request [do] builds for the client [c]. *)
Definition request_of {A : Type} `{!Marshaler A} (c : Client) (method path : string)
    (body : option A) : result Request :=
  match marshal_body body with
  | Err err => Err err
  | Ok bodyReader =>
      match NewRequest method (BaseURL c +:+ path) bodyReader with
      | Err err => Err (Errorf "error creating request" err)
      | Ok req =>
          Ok (set_header "X-Server-API-Key" (APIKey c)
                (set_header "Accept" "application/json"
                   (set_header "Content-Type" "application/json" req)))
      end
  end.

(** What [do] returns once the request [req] goes out from the store
    [s]. *)
Definition answer (s : Store) (req : Request) : result Response :=
  match Do (HTTPClient (client s)) (sent s) req with
  | Err err => Err (Errorf "error performing request" err)
  | Ok resp =>
      match ReadAll resp with
      | Err err => Err (Errorf "error reading response body" err)
      | Ok respBody => parse_response (StatusCode resp) respBody
      end
  end.

(** The header fields [do] sets, for the client [c]. *)
Definition expected_headers (c : Client) : Header :=
  {[ "Content-Type" := ["application/json"];
     "Accept" := ["application/json"];
     "X-Server-Api-Key" := [APIKey c] ]}.

(** A call of one of the four endpoint methods. *)
Inductive endpoint : Type :=
| CallSendMessage (req : option models.SendMessageRequest)
| CallSendRaw (req : option models.SendRawRequest)
| CallGetMessage (id : Z)
| CallGetMessageDeliveries (id : Z).

(** What a call gives back. *)
Inductive value : Type :=
| SendValue (r : models.SendMessageResponse)
| MessageValue (m : models.Message)
| DeliveriesValue (ds : list models.Delivery).

Definition lift {X : Type} (inj : X -> value) (m : M (result X)) : M (result value) :=
  r ← m;
  mret (match r with Ok x => Ok (inj x) | Err err => Err err end).

Definition call (ep : endpoint) : M (result value) :=
  match ep with
  | CallSendMessage req => lift SendValue (SendMessage req)
  | CallSendRaw req => lift SendValue (SendRaw req)
  | CallGetMessage id => lift MessageValue (GetMessage id)
  | CallGetMessageDeliveries id => lift DeliveriesValue (GetMessageDeliveries id)
  end.

(** The path suffix of each method. *)
Definition endpoint_path (ep : endpoint) : string :=
  match ep with
  | CallSendMessage _ => "/send/message"
  | CallSendRaw _ => "/send/raw"
  | CallGetMessage _ => "/messages/message"
  | CallGetMessageDeliveries _ => "/messages/deliveries"
  end.

(** The transport call of each method. *)
Definition endpoint_post (ep : endpoint) : M (result Response) :=
  match ep with
  | CallSendMessage req => post (endpoint_path ep) (Some req)
  | CallSendRaw req => post (endpoint_path ep) (Some req)
  | CallGetMessage id => post (endpoint_path ep) (Some ({[ "id" := id ]} : gmap string Z))
  | CallGetMessageDeliveries id =>
      post (endpoint_path ep) (Some ({[ "id" := id ]} : gmap string Z))
  end.

(** [data] decoded into the response type of the method. *)
Definition decode_value (ep : endpoint) (data : bytes) : json_error + value :=
  let inj {X : Type} (f : X -> value) (r : json_error + X) : json_error + value :=
    match r with inl e => inl e | inr x => inr (f x) end in
  match ep with
  | CallSendMessage _ | CallSendRaw _ => inj SendValue (Unmarshal_SendMessageResponse data)
  | CallGetMessage _ => inj MessageValue (Unmarshal_Message data)
  | CallGetMessageDeliveries _ => inj DeliveriesValue (Unmarshal_Deliveries data)
  end.

(** The text each method puts before a decoding error. *)
Definition parse_error_text (ep : endpoint) : string :=
  match ep with
  | CallSendMessage _ | CallSendRaw _ => "error unmarshaling send response"
  | CallGetMessage _ | CallGetMessageDeliveries _ => "error unmarshaling response"
  end.

End Calls.

(** ** Test doubles

    A platform and servers to run the client against, in the manner of
    the [httptest] servers and the mock transport of the package's
    tests. *)
Module Stub.

(** The first check of [url.Parse]: no control bytes. *)
Definition url_error (rawURL : string) : option string :=
  if all_bytes (fun c => negb (N.ltb (code c) 32 || N.eqb (code c) 127)) rawURL
  then None
  else Some "net/url: invalid control character in URL".

(** Numbers and times are kept as their text. *)
#[export] Instance platform : Platform := {|
  float64 := string;
  float64_zero := "0";
  strconv_ParseFloat := Some;
  time_Time := string;
  time_zero := EmptyString;
  time_UnmarshalJSON := fun data _ => Some data;
  url_Parse_error := url_error
|}.

(** The servers below do not read the request body: the encoders are
    canned, and a client made without a transport has the mock one. *)
#[export] Instance environment : Environment := {|
  encode_SendMessageRequest := fun _ => "{}";
  encode_SendRawRequest := fun _ => "{}";
  encode_map := fun _ => "{}";
  DefaultTransport := fun _ _ => Err (errorString "mock transport error")
|}.

(** A server that answers every request with the status [status] and
    the body [body]. *)
Definition server (status : Z) (body : bytes)
  : list Request -> Request -> result HTTPResponse :=
  fun _ _ => Ok {| StatusCode := status; ReadAll := Ok body |}.

(** A fresh client of that server, as the tests make it. *)
Definition store (status : Z) (body : bytes) : Store :=
  {| client := {| BaseURL := "http://127.0.0.1:8080"; APIKey := "test-api-key";
                  HTTPClient := {| Timeout := DefaultTimeout; Do := server status body |} |};
     sent := [] |}.

Definition request : models.SendMessageRequest :=
  {| models.To := ["a@b.com"]; models.CC := []; models.BCC := [];
     models.From := "c@d.com"; models.Sender := EmptyString; models.Subject := EmptyString;
     models.Tag := EmptyString; models.ReplyTo := EmptyString; models.PlainBody := EmptyString;
     models.HTMLBody := EmptyString; models.Attachments := []; models.Headers := ∅;
     models.Bounce := false |}.

Definition success_body : bytes :=
  q "{'status':'success','data':{'message_id':123,'token':'t'}}".

Definition error_body : bytes :=
  q "{'status':'error','time':0.123,'flags':{},'data':{'error':'test error'},'error_code':'test-error','message':'Test error message'}".

(** An envelope whose [message] is a number. *)
Definition odd_error_body : bytes := q "{'status':'error','message':123}".

(** A [success] envelope whose [data] does not fit [models.Message]. *)
Definition bad_data_body : bytes := q "{'status':'success','data':{'id':'123'}}".

(** The body argument of [SendMessage]'s transport call. *)
Definition send_body : option (option models.SendMessageRequest) := Some (Some request).

End Stub.

(** ** More to speak of *)

Section Failures.
Context `{Platform}.

(** The errors [do] can return, by the text in front of them. *)
Inductive do_error : error -> Prop :=
| marshaling_error err : do_error (Errorf "error marshaling request body" err)
| creating_error err : do_error (Errorf "error creating request" err)
| performing_error err : do_error (Errorf "error performing request" err)
| reading_error err : do_error (Errorf "error reading response body" err)
| decoding_error_error je :
    do_error (Errorf "error unmarshaling error response" (jsonError je))
| decoding_error je : do_error (Errorf "error unmarshaling response" (jsonError je))
| api_error e : do_error (apiError e).

(** The errors an endpoint method can return: those of [do], and its own
    error for [Data], under the text [text]. *)
Inductive call_error (text : string) : error -> Prop :=
| transport_error err : do_error err -> call_error text err
| parsing_error je : call_error text (Errorf text (jsonError je)).

(** What an envelope and an error envelope decoded from one body have in
    common. *)
Definition agree (env : Response) (e : Error) : Prop :=
  Status env = Error_Status e /\ Time env = Error_Time e /\
  Flags env = Error_Flags e /\ Data env = Error_Data e.

End Failures.

(** Every member of an object keeps bytes that are a JSON text of its
    value. *)
Definition members_scan (ms : list (string * (bytes * jvalue))) : Prop :=
  Forall (fun m => scan m.2.1 = Some m.2.2) ms.

(** The text of the envelope's [status] member. *)
Definition envelope_status (body : bytes) : string :=
  match scan body with
  | Some (JObject ms) => last_string "status" ms EmptyString
  | _ => EmptyString
  end.

(** The number a member of an object stands for. *)
Fixpoint last_int (name : string) (ms : list (string * (bytes * jvalue))) (d : Z) : Z :=
  match ms with
  | [] => d
  | (key, (_, v)) :: ms' =>
      last_int name ms'
        (if names name key
         then match v with JNumber lit => default d (ParseInt lit) | _ => d end
         else d)
  end.

(** The members [name] of the object that the text [data] is. *)
Definition member_string (name : string) (data : bytes) : string :=
  match scan data with
  | Some (JObject ms) => last_string name ms EmptyString
  | _ => EmptyString
  end.

Definition member_int (name : string) (data : bytes) : Z :=
  match scan data with
  | Some (JObject ms) => last_int name ms 0
  | _ => 0%Z
  end.

Section Values.
Context `{Environment}.

(** A delivery next to the array element it was decoded from. *)
Definition delivery_matches (d : models.Delivery) (v : jvalue) : Prop :=
  match v with
  | JObject ms =>
      models.Delivery_ID d = last_int "id" ms 0 /\
      models.Delivery_Status d = last_string "status" ms EmptyString /\
      models.Delivery_Details d = last_string "details" ms EmptyString
  | _ => d = Delivery_zero
  end.

(** A result next to the text of [Data] it was decoded from. *)
Definition value_matches (v : value) (data : bytes) : Prop :=
  match v with
  | SendValue r =>
      models.MessageID r = member_int "message_id" data /\
      models.Token r = member_string "token" data
  | MessageValue m =>
      models.Message_ID m = member_int "id" data /\
      models.Message_Token m = member_string "token" data
  | DeliveriesValue ds =>
      match scan data with
      | Some (JArray vs) => Forall2 delivery_matches ds vs
      | _ => ds = []
      end
  end.

(** The zero value of the result of each method. *)
Definition zero_value (ep : endpoint) : value :=
  match ep with
  | CallSendMessage _ | CallSendRaw _ => SendValue SendMessageResponse_zero
  | CallGetMessage _ => MessageValue Message_zero
  | CallGetMessageDeliveries _ => DeliveriesValue []
  end.

(** The body each method posts. *)
Definition endpoint_body (ep : endpoint) : bytes :=
  match ep with
  | CallSendMessage req => encode_SendMessageRequest req
  | CallSendRaw req => encode_SendRawRequest req
  | CallGetMessage id | CallGetMessageDeliveries id => encode_map {[ "id" := id ]}
  end.

(** What one call of a method does to the store: it leaves the client
    alone and sends nothing, or one POST to its path with its body. *)
Definition method_effect {X : Type} (path : string) (body : bytes)
    (s s' : Store) (r : result X) : Prop :=
  client s' = client s /\
  ((sent s' = sent s /\ exists err, r = Err err) \/
   exists req, sent s' = (sent s ++ [req])%list /\
     Method req = "POST" /\ URL req = BaseURL (client s) +:+ path /\
     Req_Header req = expected_headers (client s) /\
     Body req = Some body).

End Values.


(** ** The examples

    The two example programs.  What they print is kept as the calls of
    [fmt.Printf] and [log.Fatalf] with their arguments; [log.Fatalf] ends
    the run. *)

Definition newline : string := String (chr 10) EmptyString.

Inductive arg `{Platform} : Type :=
| ArgInt (n : Z)
| ArgString (s : string)
| ArgError (err : error).

Inductive event `{Platform} : Type :=
| Printf (format : string) (args : list arg)
| Fatalf (format : string) (args : list arg).

(** encoding/base64, [StdEncoding.EncodeToString]. *)
Definition base64_alphabet : string :=
  "ABCDEFGHIJKLMNOPQRSTUVWXYZabcdefghijklmnopqrstuvwxyz0123456789+/".

Definition base64_char (n : N) : ascii :=
  match String.get (N.to_nat n) base64_alphabet with
  | Some c => c
  | None => "="%char
  end.

Fixpoint base64_EncodeToString (src : bytes) : string :=
  match src with
  | EmptyString => EmptyString
  | String a EmptyString =>
      String (base64_char (code a / 4))
        (String (base64_char (code a mod 4 * 16)) "==")
  | String a (String b EmptyString) =>
      String (base64_char (code a / 4))
        (String (base64_char (code a mod 4 * 16 + code b / 16))
           (String (base64_char (code b mod 16 * 4)) "="))
  | String a (String b (String c r)) =>
      String (base64_char (code a / 4))
        (String (base64_char (code a mod 4 * 16 + code b / 16))
           (String (base64_char (code b mod 16 * 4 + code c / 64))
              (String (base64_char (code c mod 64)) (base64_EncodeToString r))))
  end.

Section Examples.
Context `{Environment}.

(** The lines both examples print for the deliveries. *)
Fixpoint print_deliveries (i : Z) (deliveries : list models.Delivery) : list event :=
  match deliveries with
  | [] => []
  | delivery :: rest =>
      Printf ("Delivery %d - Status: %s, Details: %s" +:+ newline)
        [ArgInt (i + 1); ArgString (models.Delivery_Status delivery);
         ArgString (models.Delivery_Details delivery)]
      :: print_deliveries (i + 1) rest
  end.

(** [client.BaseURL = baseURL]. *)
Definition set_BaseURL (baseURL : string) (c : Client) : Client :=
  {| BaseURL := baseURL; APIKey := APIKey c; HTTPClient := HTTPClient c |}.

End Examples.

(** Package [message], [SendExample]; [net] holds the requests the
    network has seen before the run. *)
Module message.
Section Example.
Context `{Environment}.

Definition SendExample (apiKey baseURL : string) (net : list Request) : list event * Store :=
  let client := NewClient apiKey in
  let client := if negb (String.eqb baseURL EmptyString) then set_BaseURL baseURL client
                else client in
  let req : models.SendMessageRequest :=
    {| models.To := ["recipient@example.com"]; models.CC := []; models.BCC := [];
       models.From := "sender@yourdomain.com"; models.Sender := EmptyString;
       models.Subject := "Hello from Postal API"; models.Tag := EmptyString;
       models.ReplyTo := EmptyString;
       models.PlainBody := "This is a test email sent using the Postal API Go client.";
       models.HTMLBody :=
         "<p>This is a test email sent using the <strong>Postal API Go client</strong>.</p>";
       models.Attachments := [];
       models.Headers := {[ "X-Custom-Header" := "Custom Value" ]};
       models.Bounce := false |} in
  let '(r, s) := SendMessage (Some req) {| client := client; sent := net |} in
  match r with
  | Err err => ([Fatalf "Error sending message: %v" [ArgError err]], s)
  | Ok resp =>
      let out1 :=
        [Printf ("Message sent successfully! Message ID: %d, Token: %s" +:+ newline)
           [ArgInt (models.MessageID resp); ArgString (models.Token resp)]] in
      let '(r, s) := GetMessage (models.MessageID resp) s in
      match r with
      | Err err => ((out1 ++ [Fatalf "Error getting message: %v" [ArgError err]])%list, s)
      | Ok message =>
          let out2 :=
            (out1 ++
             [Printf ("Message details - ID: %d, Token: %s" +:+ newline)
                [ArgInt (models.Message_ID message);
                 ArgString (models.Message_Token message)]])%list in
          let '(r, s) := GetMessageDeliveries (models.MessageID resp) s in
          match r with
          | Err err =>
              ((out2 ++ [Fatalf "Error getting message deliveries: %v" [ArgError err]])%list,
               s)
          | Ok deliveries =>
              ((out2 ++
                [Printf ("Message has %d deliveries" +:+ newline)
                   [ArgInt (Z.of_nat (List.length deliveries))]] ++
                print_deliveries 0 deliveries)%list, s)
          end
      end
  end.

End Example.
End message.

(** Package [raw], [SendExample]. *)
Module raw.
Section Example.
Context `{Environment}.

Definition rawMessage : string :=
  "From: sender@yourdomain.com" +:+ newline +:+
  "To: recipient@example.com" +:+ newline +:+
  "Subject: Hello from Postal API" +:+ newline +:+
  "Content-Type: text/plain; charset=utf-8" +:+ newline +:+
  newline +:+
  "This is a test email sent using the Postal API Go client with a raw RFC2822 message."
  +:+ newline.

Definition SendExample (apiKey baseURL : string) (net : list Request) : list event * Store :=
  let client := NewClient apiKey in
  let client := if negb (String.eqb baseURL EmptyString) then set_BaseURL baseURL client
                else client in
  let encodedMessage := base64_EncodeToString rawMessage in
  let req : models.SendRawRequest :=
    {| models.MailFrom := "sender@yourdomain.com";
       models.RcptTo := ["recipient@example.com"];
       models.SendRaw_Data := encodedMessage;
       models.SendRaw_Bounce := false |} in
  let '(r, s) := SendRaw (Some req) {| client := client; sent := net |} in
  match r with
  | Err err => ([Fatalf "Error sending raw message: %v" [ArgError err]], s)
  | Ok resp =>
      let out1 :=
        [Printf ("Raw message sent successfully! Message ID: %d, Token: %s" +:+ newline)
           [ArgInt (models.MessageID resp); ArgString (models.Token resp)]] in
      let '(r, s) := GetMessage (models.MessageID resp) s in
      match r with
      | Err err => ((out1 ++ [Fatalf "Error getting message: %v" [ArgError err]])%list, s)
      | Ok message =>
          let out2 :=
            (out1 ++
             [Printf ("Message details - ID: %d, Token: %s" +:+ newline)
                [ArgInt (models.Message_ID message);
                 ArgString (models.Message_Token message)]])%list in
          let '(r, s) := GetMessageDeliveries (models.MessageID resp) s in
          match r with
          | Err err =>
              ((out2 ++ [Fatalf "Error getting message deliveries: %v" [ArgError err]])%list,
               s)
          | Ok deliveries =>
              ((out2 ++
                [Printf ("Message has %d deliveries" +:+ newline)
                   [ArgInt (Z.of_nat (List.length deliveries))]] ++
                print_deliveries 0 deliveries)%list, s)
          end
      end
  end.

End Example.
End raw.

(** The two examples side by side. *)
Inductive example : Type := MessageExample | RawExample.

Definition run_example `{Environment} (which : example) (apiKey baseURL : string)
    (net : list Request) : list event * Store :=
  match which with
  | MessageExample => message.SendExample apiKey baseURL net
  | RawExample => raw.SendExample apiKey baseURL net
  end.

(** The base URL an example works with, and the three URLs it turns to. *)
Definition example_base (baseURL : string) : string :=
  if String.eqb baseURL EmptyString then "https://postal.example.com/api/v1" else baseURL.

Definition example_urls (which : example) (baseURL : string) : list string :=
  [ example_base baseURL +:+
      match which with MessageExample => "/send/message" | RawExample => "/send/raw" end;
    example_base baseURL +:+ "/messages/message";
    example_base baseURL +:+ "/messages/deliveries" ].

Definition is_Fatalf `{Platform} (e : event) : bool :=
  match e with Fatalf _ _ => true | Printf _ _ => false end.

(** ** More test doubles *)
Module Doubles.
Import Stub.

(** The body of the package's marshaling test: a struct with a channel,
    which [json.Marshal] refuses. *)
Inductive BadType : Type := BadValue.

#[export] Instance Marshal_BadType : Marshaler BadType :=
  fun _ => Err (errorString "json: unsupported type: chan int").

(** A client whose server answers with a body that cannot be read. *)
Definition unread_store : Store :=
  {| client := {| BaseURL := "http://127.0.0.1:8080"; APIKey := "test-api-key";
                  HTTPClient :=
                    {| Timeout := DefaultTimeout;
                       Do := fun _ _ =>
                               Ok {| StatusCode := 200;
                                     ReadAll := Err (errorString "read error") |} |} |};
     sent := [] |}.

(** A client of the mock transport, which answers no request. *)
Definition mock_store : Store := {| client := NewClient "test-api-key"; sent := [] |}.

(** A client whose base URL has a control byte in it. *)
Definition invalid_store : Store :=
  {| client := {| BaseURL := "http://invalid-url-with-" +:+ String (chr 127) "-character";
                  APIKey := "test-api-key";
                  HTTPClient := {| Timeout := DefaultTimeout; Do := DefaultTransport |} |};
     sent := [] |}.

Definition invalid_body : bytes := "invalid json".

(** [success] envelopes without [data], with [data] [null], and with
    the data of each method. *)
Definition no_data_body : bytes := q "{'status':'success','flags':{}}".

Definition null_data_body : bytes := q "{'status':'success','data':null}".

Definition message_body : bytes :=
  q "{'status':'success','data':{'id':123,'token':'t'}}".

Definition deliveries_body : bytes :=
  q "{'status':'success','data':[{'id':1,'status':'Sent','details':'sent to mx'},{'id':2,'status':'SoftFail','details':'try again'}]}".

(** A network on which the server of the default base URL answers the
    three endpoints the examples turn to. *)
Definition network : Environment := {|
  encode_SendMessageRequest := fun _ => "{}";
  encode_SendRawRequest := fun _ => "{}";
  encode_map := fun _ => "{}";
  DefaultTransport := fun _ req =>
    Ok {| StatusCode := 200;
          ReadAll :=
            Ok (if String.eqb (URL req) (DefaultBaseURL +:+ "/messages/message")
                then message_body
                else if String.eqb (URL req) (DefaultBaseURL +:+ "/messages/deliveries")
                then deliveries_body
                else success_body) |}
|}.

End Doubles.

(** ** The scanner reads forward *)

Create HintDb scan.
#[local] Hint Constructors Suffix : scan.

Lemma Suffix_trans a b c : Suffix a b -> Suffix b c -> Suffix a c.
Proof. intros Hab Hbc. induction Hbc; eauto with scan. Qed.

Lemma Suffix_app rest s : Suffix rest s -> exists pre, s = pre +:+ rest.
Proof.
  induction 1 as [|c s _ [pre ->]].
  - by exists EmptyString.
  - by exists (String c pre).
Qed.

Lemma Suffix_length rest s : Suffix rest s -> String.length rest <= String.length s.
Proof. induction 1; simpl; lia. Qed.

Lemma skip_ws_Suffix s : Suffix (skip_ws s) s.
Proof. induction s as [|c r IH]; simpl; [|destruct (isSpace c)]; eauto with scan. Qed.

Lemma span_digits_Suffix s d rest : span_digits s = (d, rest) -> Suffix rest s.
Proof.
  revert d rest. induction s as [|c r IH]; simpl; intros d rest Hs.
  - injection Hs as <- <-. constructor.
  - destruct (isDigit c).
    + destruct (span_digits r) as [d' rest'] eqn:Hr. injection Hs as <- <-.
      eauto with scan.
    + injection Hs as <- <-. constructor.
Qed.

Lemma scan_digits1_Suffix s d rest : scan_digits1 s = Some (d, rest) -> Suffix rest s.
Proof.
  unfold scan_digits1. destruct (span_digits s) as [d' rest'] eqn:Hs.
  destruct d'; [done|]. intros [= <- <-]. eauto using span_digits_Suffix.
Qed.

#[local] Hint Resolve scan_digits1_Suffix skip_ws_Suffix : scan.

Lemma scan_int_Suffix s d rest : scan_int s = Some (d, rest) -> Suffix rest s.
Proof.
  destruct s as [|c r]; simpl; [done|].
  destruct (Ascii.eqb c "0").
  - intros [= <- <-]. eauto with scan.
  - destruct (isDigit c); [|done]. apply scan_digits1_Suffix.
Qed.

Lemma scan_frac_Suffix s d rest : scan_frac s = Some (d, rest) -> Suffix rest s.
Proof.
  destruct s as [|c r]; simpl.
  - intros [= <- <-]. constructor.
  - destruct (Ascii.eqb c ".").
    + destruct (scan_digits1 r) as [[d' rest']|] eqn:Hr; [|done].
      intros [= <- <-]. eauto with scan.
    + intros [= <- <-]. constructor.
Qed.

Lemma scan_exp_Suffix s d rest : scan_exp s = Some (d, rest) -> Suffix rest s.
Proof.
  destruct s as [|c r]; simpl.
  - intros [= <- <-]. constructor.
  - destruct (Ascii.eqb c "e" || Ascii.eqb c "E")%bool.
    + destruct r as [|sg r1]; [done|].
      destruct (Ascii.eqb sg "+" || Ascii.eqb sg "-")%bool.
      * destruct (scan_digits1 r1) as [[d' rest']|] eqn:Hr; [|done].
        intros [= <- <-]. eauto with scan.
      * destruct (scan_digits1 (String sg r1)) as [[d' rest']|] eqn:Hr; [|done].
        intros [= <- <-]. eauto with scan.
    + intros [= <- <-]. constructor.
Qed.

Lemma scan_number_Suffix s lit rest : scan_number s = Some (lit, rest) -> Suffix rest s.
Proof.
  unfold scan_number.
  set (p := match s with String c r => if Ascii.eqb c "-" then ("-", r) else (EmptyString, s) | EmptyString => (EmptyString, s) end).
  assert (Hp : Suffix p.2 s).
  { subst p. destruct s as [|c r]; simpl; [constructor|].
    destruct (Ascii.eqb c "-"); simpl; eauto with scan. }
  destruct p as [sign s1]. simpl in Hp.
  destruct (scan_int s1) as [[i s2]|] eqn:Hi; [|done].
  destruct (scan_frac s2) as [[f s3]|] eqn:Hf; [|done].
  destruct (scan_exp s3) as [[e s4]|] eqn:He; [|done].
  intros [= <- <-].
  apply scan_int_Suffix in Hi. apply scan_frac_Suffix in Hf. apply scan_exp_Suffix in He.
  eauto using Suffix_trans.
Qed.

Lemma scan_word_Suffix w s rest : scan_word w s = Some rest -> Suffix rest s.
Proof.
  revert s. induction w as [|a w IH]; simpl; intros s Hs.
  - injection Hs as <-. constructor.
  - destruct s as [|b s]; [done|]. destruct (Ascii.eqb a b); [|done]. eauto with scan.
Qed.

Lemma scan_string_Suffix s : forall k u rest, scan_string k s = Some (u, rest) -> Suffix rest s.
Proof.
  induction s as [s IH] using (well_founded_induction (Wf_nat.well_founded_ltof _ String.length)).
  unfold Wf_nat.ltof in IH.
  intros k u rest Hs. destruct s as [|c r]; [done|].
  assert (Hsub : forall k' s' u' rest', Suffix s' r -> scan_string k' s' = Some (u', rest') -> Suffix rest' (String c r)).
  { intros k' s' u' rest' Hsuf Hk. apply Suffix_skip. eapply Suffix_trans; [|exact Hsuf].
    eapply IH; [|exact Hk]. apply Suffix_length in Hsuf. simpl. lia. }
  simpl in Hs.
  repeat case_match; simplify_eq;
    try (eapply Hsub; [|eassumption]; repeat constructor); eauto with scan.
Qed.

Lemma app_assoc_s (a b c : string) : (a +:+ b) +:+ c = a +:+ (b +:+ c).
Proof.
  induction a as [|x a IH]; [done|].
  change (String x ((a +:+ b) +:+ c) = String x (a +:+ b +:+ c)). by rewrite IH.
Qed.

Lemma length_app_s (a b : string) : String.length (a +:+ b) = String.length a + String.length b.
Proof. induction a as [|x a IH]; simpl; [done|]. by rewrite IH. Qed.

Lemma substring_app (a b : string) : String.substring 0 (String.length a) (a +:+ b) = a.
Proof.
  induction a as [|x a IH]; simpl.
  - by destruct b.
  - by rewrite IH.
Qed.

Lemma consumed_app pre rest : consumed (pre +:+ rest) rest = pre.
Proof.
  unfold consumed. rewrite length_app_s.
  replace (String.length pre + String.length rest - String.length rest) with (String.length pre) by lia.
  apply substring_app.
Qed.

Lemma Occurs_empty s : Occurs EmptyString s.
Proof. by exists EmptyString, s. Qed.

Lemma Occurs_Suffix raw r s : Occurs raw r -> Suffix r s -> Occurs raw s.
Proof.
  intros (pre & post & ->) Hs. apply Suffix_app in Hs as [pre' ->].
  exists (pre' +:+ pre), post. by rewrite app_assoc_s.
Qed.

Lemma Occurs_consumed sv rest : Suffix rest sv -> Occurs (consumed sv rest) sv.
Proof.
  intros Hs. apply Suffix_app in Hs as [pre ->]. rewrite consumed_app.
  by exists EmptyString, rest.
Qed.

Lemma members_Occur_Suffix ms r s : members_Occur ms r -> Suffix r s -> members_Occur ms s.
Proof.
  unfold members_Occur. intros Hms Hs. eapply Forall_impl; [exact Hms|].
  intros m Hm. simpl in Hm. eapply Occurs_Suffix; eassumption.
Qed.


Ltac suffix :=
  match goal with
  | |- Suffix ?x ?x => apply Suffix_here
  | H : Suffix ?a ?b |- Suffix ?x ?b => apply (Suffix_trans x a b); [suffix | exact H]
  | |- Suffix _ (String _ _) => apply Suffix_skip; suffix
  end.

Ltac forward_facts IHv IHe IHm :=
  repeat match goal with
    | H : scan_members _ _ _ = Some _ |- _ => apply IHm in H as [? ?]
    | H : scan_elems _ _ _ = Some _ |- _ => apply IHe in H
    | H : scan_value _ _ _ = Some _ |- _ => apply IHv in H as [? ?]
    | H : scan_string _ _ = Some _ |- _ => apply scan_string_Suffix in H
    | H : scan_number _ = Some _ |- _ => apply scan_number_Suffix in H
    | H : scan_word _ _ = Some _ |- _ => apply scan_word_Suffix in H
    end;
  repeat match goal with
    | H : context [skip_ws ?r] |- _ =>
        lazymatch goal with
        | _ : Suffix (skip_ws r) r |- _ => fail
        | _ => pose proof (skip_ws_Suffix r)
        end
    end;
  repeat match goal with
    | H : skip_ws ?r = String _ _ |- _ => rewrite H in *; clear H
    end.

Lemma scan_value_forward (fuel : nat) :
  (forall depth s v rest, scan_value fuel depth s = Some (v, rest) ->
     Suffix rest s /\ object_Occurs v s) /\
  (forall depth s vs rest, scan_elems fuel depth s = Some (vs, rest) -> Suffix rest s) /\
  (forall depth s ms rest, scan_members fuel depth s = Some (ms, rest) ->
     Suffix rest s /\ members_Occur ms s).
Proof.
  induction fuel as [|fuel (IHv & IHe & IHm)]; [by repeat split|].
  split; [|split].
  - intros depth s v rest Hs.
    cbn [scan_value scan_elems scan_members] in Hs.
    destruct s as [|c r]; [done|].
    repeat case_match; simplify_eq; forward_facts IHv IHe IHm;
      (split; [suffix|]); simpl; try done; try (by constructor).
    eapply members_Occur_Suffix; [eassumption|suffix].
  - intros depth s vs rest Hs.
    cbn [scan_value scan_elems scan_members] in Hs.
    repeat case_match; simplify_eq; forward_facts IHv IHe IHm; suffix.
  - intros depth s ms rest Hs.
    cbn [scan_value scan_elems scan_members] in Hs.
    repeat case_match; simplify_eq; forward_facts IHv IHe IHm;
      (split; [suffix|]).
    + constructor.
      * simpl. eapply Occurs_Suffix; [apply Occurs_consumed; eassumption|suffix].
      * eapply members_Occur_Suffix; [eassumption|suffix].
    + constructor; [|constructor].
      simpl. eapply Occurs_Suffix; [apply Occurs_consumed; eassumption|suffix].
Qed.

(** ** The scanner never runs out of fuel *)

Lemma skip_ws_length s : String.length (skip_ws s) <= String.length s.
Proof. apply Suffix_length, skip_ws_Suffix. Qed.

Lemma scan_digits1_shorter s d rest :
  scan_digits1 s = Some (d, rest) -> String.length rest < String.length s.
Proof.
  unfold scan_digits1. destruct (span_digits s) as [d' rest'] eqn:Hs.
  destruct d' as [|c d']; [done|]. intros [= <- <-].
  destruct s as [|c0 r]; simpl in Hs; [done|].
  destruct (isDigit c0); [|done].
  destruct (span_digits r) as [d1 r1] eqn:Hr. injection Hs as _ _ <-.
  apply span_digits_Suffix, Suffix_length in Hr. simpl. lia.
Qed.

Lemma scan_number_shorter s lit rest :
  scan_number s = Some (lit, rest) -> String.length rest < String.length s.
Proof.
  unfold scan_number.
  set (p := match s with String c r => if Ascii.eqb c "-" then ("-", r) else (EmptyString, s) | EmptyString => (EmptyString, s) end).
  assert (Hp : String.length p.2 <= String.length s).
  { subst p. destruct s as [|c r]; simpl; [done|].
    destruct (Ascii.eqb c "-"); simpl; lia. }
  destruct p as [sign s1]. simpl in Hp.
  destruct (scan_int s1) as [[i s2]|] eqn:Hi; [|done].
  destruct (scan_frac s2) as [[f s3]|] eqn:Hf; [|done].
  destruct (scan_exp s3) as [[e s4]|] eqn:He; [|done].
  intros [= <- <-].
  apply scan_frac_Suffix, Suffix_length in Hf. apply scan_exp_Suffix, Suffix_length in He.
  assert (String.length s2 < String.length s1); [|lia].
  unfold scan_int in Hi. destruct s1 as [|c r]; [done|].
  destruct (Ascii.eqb c "0").
  - injection Hi as _ <-. simpl. lia.
  - destruct (isDigit c); [|done]. by apply scan_digits1_shorter in Hi.
Qed.

Lemma scan_word_shorter a w s rest :
  scan_word (String a w) s = Some rest -> String.length rest < String.length s.
Proof.
  simpl. destruct s as [|b s]; [done|]. destruct (Ascii.eqb a b); [|done].
  intros Hw. apply scan_word_Suffix, Suffix_length in Hw. simpl. lia.
Qed.

Lemma scan_string_shorter s : forall k u rest,
  scan_string k s = Some (u, rest) -> String.length rest < String.length s.
Proof.
  induction s as [s IH] using (well_founded_induction (Wf_nat.well_founded_ltof _ String.length)).
  unfold Wf_nat.ltof in IH.
  intros k u rest Hs. destruct s as [|c r]; [done|].
  simpl in Hs.
  repeat case_match; simplify_eq; simpl; try lia;
    match goal with
    | H : scan_string _ ?s' = Some _ |- _ => apply IH in H; simpl in *; lia
    end.
Qed.

Ltac length_facts IHv IHe IHm :=
  repeat match goal with
    | H : scan_members _ _ _ = Some _ |- _ => apply IHm in H
    | H : scan_elems _ _ _ = Some _ |- _ => apply IHe in H
    | H : scan_value _ _ _ = Some _ |- _ => apply IHv in H
    | H : scan_string _ _ = Some _ |- _ => apply scan_string_shorter in H
    | H : scan_number _ = Some _ |- _ => apply scan_number_shorter in H
    | H : scan_word (String _ _) _ = Some _ |- _ => apply scan_word_shorter in H
    end;
  repeat match goal with
    | H : context [skip_ws ?r] |- _ =>
        lazymatch goal with
        | _ : String.length (skip_ws r) <= String.length r |- _ => fail
        | _ => pose proof (skip_ws_length r)
        end
    end;
  repeat match goal with
    | H : skip_ws ?r = String _ _ |- _ => rewrite H in *; clear H
    end;
  simpl in *.

Lemma scan_value_shorter (fuel : nat) :
  (forall depth s v rest, scan_value fuel depth s = Some (v, rest) ->
     String.length rest < String.length s) /\
  (forall depth s vs rest, scan_elems fuel depth s = Some (vs, rest) ->
     String.length rest + 1 < String.length s) /\
  (forall depth s ms rest, scan_members fuel depth s = Some (ms, rest) ->
     String.length rest + 1 < String.length s).
Proof.
  induction fuel as [|fuel (IHv & IHe & IHm)]; [by repeat split|].
  split; [|split]; intros depth s v rest Hs;
    cbn [scan_value scan_elems scan_members] in Hs;
    repeat case_match; simplify_eq; length_facts IHv IHe IHm; lia.
Qed.

Ltac shorter_facts Sv Se Sm :=
  repeat match goal with
    | H : scan_members _ _ _ = Some _ |- _ =>
        let F := fresh in pose proof (Sm _ _ _ _ H) as F; revert H
    | H : scan_elems _ _ _ = Some _ |- _ => let F := fresh in pose proof (Se _ _ _ _ H) as F; revert H
    | H : scan_value _ _ _ = Some _ |- _ => let F := fresh in pose proof (Sv _ _ _ _ H) as F; revert H
    | H : scan_string _ _ = Some _ |- _ => let F := fresh in pose proof (scan_string_shorter _ _ _ _ H) as F; revert H
    | H : scan_number _ = Some _ |- _ => let F := fresh in pose proof (scan_number_shorter _ _ _ H) as F; revert H
    | H : scan_word (String _ _) _ = Some _ |- _ => let F := fresh in pose proof (scan_word_shorter _ _ _ _ H) as F; revert H
    | H : skip_ws ?r = String _ _ |- _ =>
        let F := fresh in pose proof (skip_ws_length r) as F; rewrite H in F; revert H
    end;
  intros;
  repeat match goal with
    | H : context [skip_ws ?r] |- _ =>
        lazymatch goal with
        | _ : String.length (skip_ws r) <= String.length r |- _ => fail
        | _ => pose proof (skip_ws_length r)
        end
    end;
  cbn [String.length] in *.

Ltac rewrite_matches :=
  repeat match goal with
    | H : ?x = _ |- context [match ?x with _ => _ end] => rewrite H
    end.

Lemma scan_value_fuel (fuel : nat) :
  (forall depth s v rest, scan_value fuel depth s = Some (v, rest) ->
     forall m, 2 * (String.length s - String.length rest) <= m ->
     scan_value m depth s = Some (v, rest)) /\
  (forall depth s vs rest, scan_elems fuel depth s = Some (vs, rest) ->
     forall m, 2 * (String.length s - String.length rest) <= m + 1 ->
     scan_elems m depth s = Some (vs, rest)) /\
  (forall depth s ms rest, scan_members fuel depth s = Some (ms, rest) ->
     forall m, 2 * (String.length s - String.length rest) <= m + 1 ->
     scan_members m depth s = Some (ms, rest)).
Proof.
  induction fuel as [|fuel (IHv & IHe & IHm)]; [by repeat split|].
  pose proof (scan_value_shorter fuel) as (Sv & Se & Sm).
  pose proof (scan_value_shorter (S fuel)) as (Sv' & Se' & Sm').
  split; [|split]; intros depth s v rest Hs m Hm.
  - pose proof (Sv' _ _ _ _ Hs) as Hlen. clear Sv' Se' Sm'.
    cbn [scan_value scan_elems scan_members] in Hs.
    repeat case_match; simplify_eq; shorter_facts Sv Se Sm;
      (destruct m as [|m]; [lia|]); cbn [scan_value scan_elems scan_members];
      repeat match goal with
        | H : scan_members fuel _ _ = Some _ |- _ => apply IHm with (m := m) in H; [|cbn [String.length]; lia]
        | H : scan_elems fuel _ _ = Some _ |- _ => apply IHe with (m := m) in H; [|cbn [String.length]; lia]
        end;
      rewrite_matches; done.
  - pose proof (Se' _ _ _ _ Hs) as Hlen. clear Sv' Se' Sm'.
    cbn [scan_value scan_elems scan_members] in Hs.
    repeat case_match; simplify_eq; shorter_facts Sv Se Sm;
      (destruct m as [|m]; [lia|]); cbn [scan_value scan_elems scan_members];
      repeat match goal with
        | H : scan_value fuel _ _ = Some _ |- _ => apply IHv with (m := m) in H; [|cbn [String.length]; lia]
        | H : scan_elems fuel _ _ = Some _ |- _ => apply IHe with (m := m) in H; [|cbn [String.length]; lia]
        end;
      rewrite_matches; done.
  - pose proof (Sm' _ _ _ _ Hs) as Hlen. clear Sv' Se' Sm'.
    cbn [scan_value scan_elems scan_members] in Hs.
    repeat case_match; simplify_eq; shorter_facts Sv Se Sm;
      (destruct m as [|m]; [lia|]); cbn [scan_value scan_elems scan_members];
      repeat match goal with
        | H : scan_value fuel _ _ = Some _ |- _ => apply IHv with (m := m) in H; [|cbn [String.length]; lia]
        | H : scan_members fuel _ _ = Some _ |- _ => apply IHm with (m := m) in H; [|cbn [String.length]; lia]
        end;
      rewrite_matches; done.
Qed.

(** The fuel [scan] gives is enough: whatever some amount of fuel reads,
    [scan] reads. *)
Lemma scan_fuel (data : bytes) (fuel : nat) (v : jvalue) (rest : string) :
  scan_value fuel 0 (skip_ws data) = Some (v, rest) ->
  skip_ws rest = EmptyString ->
  scan data = Some v.
Proof.
  intros Hv Hrest. unfold scan.
  eapply scan_value_fuel in Hv as ->; [by rewrite Hrest|].
  pose proof (skip_ws_length data). lia.
Qed.

(** ** The bytes of the members *)

Lemma scan_Occurs data ms : scan data = Some (JObject ms) -> members_Occur ms data.
Proof.
  unfold scan.
  destruct (scan_value _ 0 (skip_ws data)) as [[v rest]|] eqn:Hv; [|done].
  destruct (skip_ws rest); [|done]. intros [= ->].
  apply scan_value_forward in Hv as [_ Hv]. simpl in Hv.
  eapply members_Occur_Suffix; [exact Hv|apply skip_ws_Suffix].
Qed.

Lemma last_raw_Occurs name ms s :
  members_Occur ms s -> forall d, Occurs d s -> Occurs (last_raw name ms d) s.
Proof.
  induction 1 as [|[key [raw v]] ms Hm _ IH]; intros d Hd; simpl; [done|].
  apply IH. by destruct (names name key).
Qed.

Lemma envelope_data_Occurs body : Occurs (envelope_data body) body.
Proof.
  unfold envelope_data. destruct (scan body) as [[| | | | |ms]|] eqn:Hs;
    try apply Occurs_empty.
  apply last_raw_Occurs; [by apply scan_Occurs|apply Occurs_empty].
Qed.

(** ** Looking up a field *)

Lemma byExactName_name {T : Type} (fields : field_table T) key set :
  byExactName fields key = Some set -> foldName key ∈ map (fun f => foldName f.1) fields.
Proof.
  induction fields as [|[name set0] fields IH]; simpl; [done|].
  destruct (String.eqb_spec name key) as [->|_].
  - intros _. apply list_elem_of_here.
  - intros Hk. apply list_elem_of_further. auto.
Qed.

Lemma find_field_folded {T : Type} (fields : field_table T) key :
  NoDup (map (fun f => foldName f.1) fields) ->
  find_field fields key = byFoldedName fields (foldName key).
Proof.
  unfold find_field. intros Hnd.
  destruct (byExactName fields key) as [set|] eqn:He; [|done].
  induction fields as [|[name set0] fields IH]; simpl in *; [done|].
  apply NoDup_cons in Hnd as [Hnotin Hnd].
  destruct (String.eqb_spec name key) as [->|Hne].
  - by rewrite String.eqb_refl.
  - destruct (String.eqb_spec (foldName name) (foldName key)) as [Heq|_]; [|auto].
    exfalso. apply Hnotin. rewrite Heq. eapply byExactName_name, He.
Qed.

Section Decode.
Context `{Platform}.

Lemma Response_fields_NoDup : NoDup (map (fun f => foldName f.1) Response_fields).
Proof. apply (bool_decide_unpack _). by vm_compute. Qed.

Lemma Error_fields_NoDup : NoDup (map (fun f => foldName f.1) Error_fields).
Proof. apply (bool_decide_unpack _). by vm_compute. Qed.

Ltac fold_names :=
  unfold names;
  repeat match goal with
    | |- context [foldName (String ?c ?r)] =>
        let v := eval vm_compute in (foldName (String c r)) in
        change (foldName (String c r)) with v
    end.

Ltac split_names :=
  repeat match goal with
    | |- context [String.eqb ?a (foldName ?k)] =>
        destruct (String.eqb_spec a (foldName k)); try congruence
    end.

Lemma dec_members_Response_Data ms : forall x y,
  dec_members Response_fields ms x = Some y -> Data y = last_raw "data" ms (Data x).
Proof.
  induction ms as [|[key [raw v]] ms IH]; intros x y; cbn [dec_members last_raw].
  - by intros [= <-].
  - rewrite find_field_folded by apply Response_fields_NoDup.
    cbn [byFoldedName Response_fields]. fold_names. split_names;
      unfold field, raw_field; intros Hd; repeat case_match; simplify_eq;
      apply IH in Hd; exact Hd.
Qed.

Lemma dec_members_Error_Message ms : forall x y,
  dec_members Error_fields ms x = Some y -> Message y = last_string "message" ms (Message x).
Proof.
  induction ms as [|[key [raw v]] ms IH]; intros x y; cbn [dec_members last_string].
  - by intros [= <-].
  - rewrite find_field_folded by apply Error_fields_NoDup.
    cbn [byFoldedName Error_fields]. fold_names. split_names;
      unfold field, raw_field, dec_string; intros Hd; repeat case_match; simplify_eq;
      apply IH in Hd; exact Hd.
Qed.

(** The decoded [Data] is the [data] member of the text. *)
Lemma Unmarshal_Response_Data body env :
  Unmarshal_Response body = inr env -> Data env = envelope_data body.
Proof.
  unfold Unmarshal_Response, Unmarshal, envelope_data.
  destruct (scan body) as [v|]; [|done].
  destruct (dec_struct Response_fields v Response_zero) as [x|] eqn:Hd; [|done].
  intros [= <-]. destruct v; simpl in Hd; simplify_eq; try done.
  by apply dec_members_Response_Data in Hd.
Qed.

(** The decoded [Message] is the [message] member of the text. *)
Lemma Unmarshal_Error_Message body e :
  Unmarshal_Error body = inr e -> Message e = envelope_message body.
Proof.
  unfold Unmarshal_Error, Unmarshal, envelope_message.
  destruct (scan body) as [v|]; [|done].
  destruct (dec_struct Error_fields v Error_zero) as [x|] eqn:Hd; [|done].
  intros [= <-]. destruct v; simpl in Hd; simplify_eq; try done.
  by apply dec_members_Error_Message in Hd.
Qed.

End Decode.

(** ** The transport wrapper *)

Section Transport.
Context `{Environment} {A : Type} `{!Marshaler A}.

(** [do] builds one request, hands it to the HTTP client and reads the
    answer; when the request cannot be built nothing is sent. *)
Lemma do_run (method path : string) (body : option A) (s : Store) :
  do method path body s =
  match request_of (client s) method path body with
  | Err err => (Err err, s)
  | Ok req => (answer s req, {| client := client s; sent := sent s ++ [req] |})
  end.
Proof.
  unfold do, request_of, answer, mbind, M_bind, bind, load, mret, M_ret, ret, HTTPClient_Do.
  destruct (marshal_body body) as [bodyReader|err]; [|done].
  destruct (NewRequest method (BaseURL (client s) +:+ path) bodyReader) as [req|err]; [|done].
  simpl.
  destruct (Do (HTTPClient (client s)) (sent s) _) as [resp|err]; [|done].
  by destruct (ReadAll resp).
Qed.

Lemma issued_do (method path : string) (body : option A) (s : Store) :
  issued (do method path body) s =
  match request_of (client s) method path body with
  | Err _ => []
  | Ok req => [req]
  end.
Proof.
  unfold issued. rewrite do_run.
  destruct (request_of (client s) method path body) as [req|err]; simpl.
  - by rewrite drop_app_length.
  - by rewrite drop_all.
Qed.

Lemma request_of_shape (c : Client) (method path : string) (body : option A) req :
  request_of c method path body = Ok req ->
  Method req = (if String.eqb method EmptyString then "GET" else method) /\
  URL req = BaseURL c +:+ path /\
  Req_Header req = expected_headers c.
Proof.
  unfold request_of, NewRequest.
  destruct (marshal_body body) as [bodyReader|err]; [|done].
  destruct (negb (validMethod _)); [done|].
  destruct (url_Parse_error _); [done|].
  intros [= <-]. by repeat split.
Qed.

End Transport.

Section Wrapper.
Context `{Environment} {A : Type} `{!Marshaler A}.

(** C1, as amended.  When the HTTP client answers the request of [do]
    with status 200 and a body that decodes as an envelope whose status
    is [success], [do] returns that envelope and no error, and the
    envelope's [Data] is the [data] member of the body, byte for byte
    as it stands there. *)
Theorem do_success (s : Store) (method path : string) (body : option A)
    (req : Request) (resp : HTTPResponse) (respBody : bytes) (env : Response) :
  request_of (client s) method path body = Ok req ->
  Do (HTTPClient (client s)) (sent s) req = Ok resp ->
  ReadAll resp = Ok respBody ->
  StatusCode resp = 200%Z ->
  Unmarshal_Response respBody = inr env ->
  Status env = "success" ->
  (do method path body s).1 = Ok env /\
  Data env = envelope_data respBody /\
  Occurs (Data env) respBody.
Proof.
  intros Hreq Hdo Hread Hcode Henv Hstatus.
  rewrite do_run, Hreq. unfold answer, parse_response.
  rewrite Hdo, Hread, Hcode, Henv, Hstatus. simpl.
  split; [done|]. apply Unmarshal_Response_Data in Henv as Hdata.
  split; [done|]. rewrite Hdata. apply envelope_data_Occurs.
Qed.

(** C2.  When the HTTP client answers the request of [do] with a status
    outside 200..299 and a body that decodes as an error envelope, [do]
    returns no envelope and that [*Error], whose [Message] is the
    [message] member of the body. *)
Theorem do_http_error (s : Store) (method path : string) (body : option A)
    (req : Request) (resp : HTTPResponse) (respBody : bytes) (e : Error) :
  request_of (client s) method path body = Ok req ->
  Do (HTTPClient (client s)) (sent s) req = Ok resp ->
  ReadAll resp = Ok respBody ->
  (StatusCode resp < 200 \/ 300 <= StatusCode resp)%Z ->
  Unmarshal_Error respBody = inr e ->
  (do method path body s).1 = Err (apiError e) /\
  Message e = envelope_message respBody.
Proof.
  intros Hreq Hdo Hread Hcode He.
  rewrite do_run, Hreq. unfold answer, parse_response.
  rewrite Hdo, Hread, He. simpl.
  replace (StatusCode resp =? StatusOK)%Z with false
    by (symmetry; apply Z.eqb_neq; unfold StatusOK; lia).
  split; [done|]. by apply Unmarshal_Error_Message.
Qed.

(** C3, as amended.  When the HTTP client answers the request of [do]
    with a status in 200..299 and a body that decodes as an envelope
    whose status is not [success], [do] never returns an envelope; and
    when the body also decodes as an error envelope, [do] returns that
    [*Error]. *)
Theorem do_api_error (s : Store) (method path : string) (body : option A)
    (req : Request) (resp : HTTPResponse) (respBody : bytes) (env : Response) :
  request_of (client s) method path body = Ok req ->
  Do (HTTPClient (client s)) (sent s) req = Ok resp ->
  ReadAll resp = Ok respBody ->
  (200 <= StatusCode resp < 300)%Z ->
  Unmarshal_Response respBody = inr env ->
  Status env <> "success" ->
  (exists err, (do method path body s).1 = Err err) /\
  (forall e, Unmarshal_Error respBody = inr e ->
     (do method path body s).1 = Err (apiError e)).
Proof.
  intros Hreq Hdo Hread Hcode Henv Hstatus.
  rewrite do_run, Hreq. unfold answer, parse_response.
  rewrite Hdo, Hread, Henv. simpl.
  apply String.eqb_neq in Hstatus. rewrite Hstatus. simpl.
  destruct (StatusCode resp =? StatusOK)%Z; simpl;
    destruct (Unmarshal_Error respBody) as [je|e']; split; eauto;
    intros e0 [= <-]; done.
Qed.

(** C7.  Every request [do] hands to the HTTP client carries exactly
    three header fields: [Content-Type] and [Accept] with the value
    [application/json], and the API-key field with the client's
    [APIKey]. *)
Theorem do_headers (s : Store) (method path : string) (body : option A) :
  Forall
    (fun r =>
       Req_Header r = expected_headers (client s) /\
       Header_Get "Content-Type" (Req_Header r) = "application/json" /\
       Header_Get "Accept" (Req_Header r) = "application/json" /\
       Header_Get "X-Server-API-Key" (Req_Header r) = APIKey (client s))
    (issued (do method path body) s).
Proof.
  rewrite issued_do.
  destruct (request_of (client s) method path body) as [req|err] eqn:Hreq; [|constructor].
  apply request_of_shape in Hreq as (_ & _ & Hh).
  constructor; [|constructor]. rewrite Hh. by repeat split.
Qed.

(** C10.  An envelope that [do] or [post] returns without an error has
    the status [success]. *)
Theorem do_ok_status (s : Store) (method path : string) (body : option A) (r : Response) :
  (do method path body s).1 = Ok r \/ (post path body s).1 = Ok r ->
  Status r = "success".
Proof.
  assert (Hdo : forall m, (do m path body s).1 = Ok r -> Status r = "success").
  { intros m. rewrite do_run.
    destruct (request_of (client s) m path body) as [req|err]; [|done].
    unfold answer, parse_response. simpl.
    destruct (Do (HTTPClient (client s)) (sent s) req) as [resp|err]; [|done].
    destruct (ReadAll resp) as [respBody|err]; [|done].
    destruct (negb (StatusCode resp =? StatusOK)%Z).
    - by destruct (Unmarshal_Error respBody).
    - destruct (Unmarshal_Response respBody) as [je|apiResp]; [done|].
      destruct (String.eqb_spec (Status apiResp) "success") as [Hs|_]; simpl.
      + by intros [= <-].
      + by destruct (Unmarshal_Error respBody). }
  intros [Hr|Hr]; eauto.
Qed.

(** [do] and [post] leave the client as it was. *)
Lemma do_client (s : Store) (method path : string) (body : option A) :
  client (do method path body s).2 = client s.
Proof. rewrite do_run. by destruct (request_of (client s) method path body). Qed.

End Wrapper.

(** ** The endpoint methods *)

Section Endpoints.
Context `{Environment}.

(** Each method is its transport call followed by the decoding of
    [Data]. *)
Lemma call_run (ep : endpoint) (s : Store) :
  call ep s =
  ( match (endpoint_post ep s).1 with
    | Err err => Err err
    | Ok resp =>
        match decode_value ep (Data resp) with
        | inl e => Err (Errorf (parse_error_text ep) (jsonError e))
        | inr v => Ok v
        end
    end,
    (endpoint_post ep s).2 ).
Proof.
  destruct ep; unfold call, lift, endpoint_post, endpoint_path, decode_value, parse_error_text,
    SendMessage, SendRaw, GetMessage, GetMessageDeliveries,
    mbind, M_bind, bind, mret, M_ret, ret.
  all: match goal with |- context [post ?p ?b ?st] => destruct (post p b st) as [[resp|err] s'] end;
    simpl; [|done].
  all: match goal with |- context [match ?u with inl _ => _ | inr _ => _ end] => by destruct u end.
Qed.

(** C4.  For each of the four methods: when the transport call returns
    an envelope whose [Data] does not decode into the method's response
    type, the method returns no result and the decoding error under the
    method's parsing-error text. *)
Theorem call_parse_error (ep : endpoint) (s : Store) (resp : Response) (e : json_error) :
  (endpoint_post ep s).1 = Ok resp ->
  decode_value ep (Data resp) = inl e ->
  (call ep s).1 = Err (Errorf (parse_error_text ep) (jsonError e)).
Proof. intros Hpost Hdec. by rewrite call_run, Hpost, Hdec. Qed.

(** C6.  For each of the four methods: when the transport call returns
    an error, the method returns no result and that very error. *)
Theorem call_transport_error (ep : endpoint) (s : Store) (err : error) :
  (endpoint_post ep s).1 = Err err ->
  (call ep s).1 = Err err.
Proof. intros Hpost. by rewrite call_run, Hpost. Qed.

Lemma issued_call (ep : endpoint) (s : Store) :
  issued (call ep) s = issued (endpoint_post ep) s.
Proof. unfold issued. by rewrite call_run. Qed.

Lemma issued_endpoint_post (ep : endpoint) (s : Store) :
  exists body : option bytes,
    issued (endpoint_post ep) s =
    match url_Parse_error (BaseURL (client s) +:+ endpoint_path ep) with
    | Some _ => []
    | None =>
        [ {| Method := MethodPost; URL := BaseURL (client s) +:+ endpoint_path ep;
             Req_Header := expected_headers (client s); Body := body |} ]
    end.
Proof.
  destruct ep as [req|req|id|id];
    [ exists (Some (encode_SendMessageRequest req))
    | exists (Some (encode_SendRawRequest req))
    | exists (Some (encode_map {[ "id" := id ]}))
    | exists (Some (encode_map {[ "id" := id ]})) ];
    unfold endpoint_post, post; rewrite issued_do;
    unfold request_of, marshal_body, json_Marshal, NewRequest,
      Marshal_SendMessageRequest, Marshal_SendRawRequest, Marshal_map;
    simpl; by destruct (url_Parse_error _).
Qed.

(** C8.  For each of the four methods: every request the method hands
    to the HTTP client is a POST to the client's base URL followed by
    the method's path, and it hands over exactly one whenever that URL
    parses. *)
Theorem call_posts_to_path (ep : endpoint) (s : Store) :
  Forall
    (fun r => Method r = "POST" /\ URL r = BaseURL (client s) +:+ endpoint_path ep)
    (issued (call ep) s) /\
  (url_Parse_error (BaseURL (client s) +:+ endpoint_path ep) = None ->
   List.length (issued (call ep) s) = 1).
Proof.
  rewrite issued_call. destruct (issued_endpoint_post ep s) as [body ->].
  destruct (url_Parse_error _); split; try done; by repeat constructor.
Qed.

(** C9.  [do], [post] and the four methods leave the client in the
    store as it was: its [BaseURL], [APIKey] and [HTTPClient] are after
    the call what they were before it, whatever the call returns. *)
Theorem client_unchanged :
  (forall (A : Type) (MA : Marshaler A) (method path : string) (body : option A) (s : Store),
     client (do method path body s).2 = client s /\
     client (post path body s).2 = client s) /\
  (forall (ep : endpoint) (s : Store),
     let c := client (call ep s).2 in
     c = client s /\
     BaseURL c = BaseURL (client s) /\ APIKey c = APIKey (client s) /\
     HTTPClient c = HTTPClient (client s)).
Proof.
  split.
  - intros A MA method path body s. split; apply do_client.
  - intros ep s. simpl. rewrite call_run. simpl.
    assert (Hc : client (endpoint_post ep s).2 = client s).
    { destruct ep; apply do_client. }
    by rewrite Hc.
Qed.

(** C5.  [SendMessage] with a request whose [To] is [["a@b.com"]] and
    [From] is ["c@d.com"], against a server that answers the POST to
    [/send/message] with status 200 and the [success] envelope whose
    [data] has [message_id] 123 and [token] ["t"],
    returns the response with [MessageID] 123 and [Token] ["t"], and no
    error. *)
Theorem SendMessage_example (s : Store) (req : models.SendMessageRequest)
    (resp : HTTPResponse) :
  models.To req = ["a@b.com"] ->
  models.From req = "c@d.com" ->
  url_Parse_error (BaseURL (client s) +:+ "/send/message") = None ->
  (forall r, Method r = "POST" -> URL r = BaseURL (client s) +:+ "/send/message" ->
     Do (HTTPClient (client s)) (sent s) r = Ok resp) ->
  StatusCode resp = 200%Z ->
  ReadAll resp = Ok (q "{'status':'success','data':{'message_id':123,'token':'t'}}") ->
  (SendMessage (Some req) s).1 = Ok {| models.MessageID := 123; models.Token := "t" |}.
Proof.
  intros _ _ Hurl Hserver Hcode Hbody.
  unfold SendMessage, post, mbind, M_bind, bind. rewrite do_run.
  unfold request_of, marshal_body, json_Marshal, Marshal_SendMessageRequest, NewRequest.
  simpl. rewrite Hurl. unfold answer. rewrite Hserver by done.
  rewrite Hbody, Hcode. vm_compute. reflexivity.
Qed.

End Endpoints.

(** ** The scanner reads no further than it says

    What [scan_value] reads of [x +:+ t] when it stops before [t], it reads
    of [x] alone; so the bytes kept for an object member are a JSON text
    of their own. *)

Lemma app_nil_l_s (t : string) : EmptyString +:+ t = t.
Proof. reflexivity. Qed.

Lemma app_cons_s (c : ascii) (x t : string) : String c x +:+ t = String c (x +:+ t).
Proof. reflexivity. Qed.

Ltac app_s := rewrite ?app_cons_s, ?app_nil_l_s in *.

Lemma app_nil_r_s (a : string) : a +:+ EmptyString = a.
Proof. induction a as [|c a IH]; [done|]. change (String c (a +:+ EmptyString) = String c a). by rewrite IH. Qed.

Lemma app_inv_tail_s (a b t : string) : a +:+ t = b +:+ t -> a = b.
Proof.
  revert b. induction a as [|c a IH]; intros b Hab.
  - destruct b as [|d b]; [done|]. apply (f_equal String.length) in Hab.
    rewrite ?length_app_s in Hab. simpl in Hab. lia.
  - destruct b as [|d b].
    + apply (f_equal String.length) in Hab. rewrite ?length_app_s in Hab. simpl in Hab. lia.
    + injection Hab as -> Hab. f_equal. auto.
Qed.

Lemma app_inv_nil_s (y t : string) : y +:+ t = t -> y = EmptyString.
Proof. intros Hy. by apply (app_inv_tail_s y EmptyString t). Qed.

(** A suffix of [x +:+ t] that is at least as long as [t] ends with [t]. *)
Lemma Suffix_cut (r x t : string) :
  Suffix r (x +:+ t) -> String.length t <= String.length r ->
  exists y, r = y +:+ t /\ Suffix y x.
Proof.
  induction x as [|c x IH]; app_s; intros Hs Hl.
  - exists EmptyString. split; [|constructor]. app_s.
    apply Suffix_app in Hs as [pre Hp]. destruct pre as [|d pre]; [done|].
    apply (f_equal String.length) in Hp. rewrite ?length_app_s in Hp. simpl in Hp. lia.
  - inversion Hs as [Heq|c' s' Hs' Heq]; subst.
    + exists (String c x). split; [done|constructor].
    + destruct (IH Hs' Hl) as (y & -> & Hy). exists y. split; [done|by constructor].
Qed.

Lemma skip_ws_local (x t y : string) :
  skip_ws (x +:+ t) = y +:+ t -> y <> EmptyString -> skip_ws x = y.
Proof.
  induction x as [|c x IH]; app_s; simpl; intros Hs Hy.
  - pose proof (skip_ws_length t) as Hl. rewrite Hs, ?length_app_s in Hl.
    destruct y; [done|]. simpl in Hl. lia.
  - destruct (isSpace c); [auto|]. by apply (app_inv_tail_s (String c x) y t).
Qed.

Lemma span_digits_local (x t d y : string) :
  span_digits (x +:+ t) = (d, y +:+ t) -> span_digits x = (d, y).
Proof.
  revert d y. induction x as [|c x IH]; app_s; simpl; intros d y Hs.
  - apply span_digits_Suffix in Hs as Hl. apply Suffix_length in Hl.
    rewrite ?length_app_s in Hl. destruct y; [|simpl in Hl; lia].
    simpl in Hs. destruct t as [|c t]; simpl in Hs; [by injection Hs as <-|].
    destruct (isDigit c); [|by injection Hs as <-].
    destruct (span_digits t) as [d' r'] eqn:Ht. injection Hs as _ Hr.
    apply span_digits_Suffix, Suffix_length in Ht. rewrite Hr in Ht. simpl in Ht. lia.
  - destruct (isDigit c).
    + destruct (span_digits (x +:+ t)) as [d' r'] eqn:Hx. injection Hs as <- ->.
      by rewrite (IH _ _ eq_refl).
    + injection Hs as <- Hr. by rewrite (app_inv_tail_s (String c x) y t).
Qed.

Lemma scan_digits1_local (x t d y : string) :
  scan_digits1 (x +:+ t) = Some (d, y +:+ t) -> scan_digits1 x = Some (d, y).
Proof.
  unfold scan_digits1. destruct (span_digits (x +:+ t)) as [d' r'] eqn:Hs.
  destruct d' as [|c d']; [done|]. intros [= <- ->].
  by rewrite (span_digits_local _ _ _ _ Hs).
Qed.

Lemma scan_word_local (w x t y : string) :
  scan_word w (x +:+ t) = Some (y +:+ t) -> scan_word w x = Some y.
Proof.
  revert x. induction w as [|a w IH]; intros x; simpl.
  - intros [= Hx]. by rewrite (app_inv_tail_s _ _ _ Hx).
  - destruct x as [|b x]; app_s; simpl.
    + destruct t as [|b t]; [done|]. destruct (Ascii.eqb a b); [|done].
      intros Hw. apply scan_word_Suffix, Suffix_length in Hw.
      rewrite ?length_app_s in Hw. simpl in Hw. lia.
    + destruct (Ascii.eqb a b); [|done]. apply IH.
Qed.

(** One step of [scan_string]. *)
Lemma scan_string_eq (k : nat) (c : ascii) (r : string) :
  scan_string k (String c r) =
  ltac:(let b := eval cbn [scan_string] in (scan_string k (String c r)) in exact b).
Proof. reflexivity. Qed.

(** A string literal read with [k] bytes still to copy takes those bytes
    and a closing quote at least. *)
Lemma scan_string_skip s : forall k u rest,
  scan_string k s = Some (u, rest) -> String.length rest + k + 1 <= String.length s.
Proof.
  induction s as [s IH] using (well_founded_induction (Wf_nat.well_founded_ltof _ String.length)).
  unfold Wf_nat.ltof in IH.
  intros k u rest Hs. destruct s as [|c r]; [done|].
  rewrite scan_string_eq in Hs. destruct k as [|k].
  - repeat case_match; simplify_eq; simpl; try lia;
      match goal with
      | H : scan_string _ ?s' = Some _ |- _ => apply IH in H; simpl in *; lia
      end.
  - destruct (scan_string k r) as [[u' rest']|] eqn:Hr; [|done].
    injection Hs as <- <-. apply IH in Hr; simpl in *; lia.
Qed.

Lemma utf8_seq_len_app (c : ascii) (x t : string) :
  utf8_seq_len c (x +:+ t) = utf8_seq_len c x \/
  String.length x + 2 <= utf8_seq_len c (x +:+ t).
Proof.
  unfold utf8_seq_len, cont.
  destruct x as [|a [|b [|d x]]]; app_s; cbn [String.length];
    repeat case_match; simplify_eq; auto; try congruence; right; lia.
Qed.

(** The part of [s] before [t], for [s] built from [t] by bytes in front. *)
Ltac strip t s :=
  lazymatch s with
  | t => constr:(EmptyString)
  | String ?a ?r => let p := strip t r in constr:(String a p)
  | ?z +:+ t => constr:(z)
  end.

Ltac outside :=
  match goal with
  | Hout : forall s k u, _ -> _ -> False, H : scan_string _ _ = Some (_, _ +:+ _) |- _ =>
      exfalso; eapply Hout; [|exact H]; simpl; lia
  end.

Ltac rescan :=
  match goal with
  | Hrec : forall z k u, _ -> _ -> _, H : scan_string ?k ?S = Some (?u', ?y +:+ ?T) |- _ =>
      let p := strip T S in
      let Hp := fresh "Hp" in
      assert (Hp : scan_string k p = Some (u', y)) by (apply Hrec; [simpl; lia|exact H]);
      congruence
  end.

Ltac leaves := repeat case_match; simplify_eq; first [outside|rescan].

Lemma scan_string_local (t x : string) : forall k u y,
  scan_string k (x +:+ t) = Some (u, y +:+ t) -> scan_string k x = Some (u, y).
Proof.
  induction x as [x IH] using (well_founded_induction (Wf_nat.well_founded_ltof _ String.length)).
  unfold Wf_nat.ltof in IH.
  intros k u y Hs. destruct x as [|c x1].
  { apply scan_string_skip in Hs. rewrite ?length_app_s in Hs. simpl in Hs. lia. }
  assert (Hrec : forall z k' u', String.length z <= String.length x1 ->
    scan_string k' (z +:+ t) = Some (u', y +:+ t) -> scan_string k' z = Some (u', y)).
  { intros z k' u' Hz Hk. apply IH; [simpl; lia|done]. }
  assert (Hout : forall s k' u', String.length s <= String.length t ->
    scan_string k' s = Some (u', y +:+ t) -> False).
  { intros s k' u' Hl Hk. apply scan_string_skip in Hk. rewrite ?length_app_s in Hk. lia. }
  clear IH. app_s. rewrite scan_string_eq in Hs. rewrite scan_string_eq.
  destruct k as [|k].
  2:{ destruct (scan_string k (x1 +:+ t)) as [[u' rest']|] eqn:Hr; [|done].
      injection Hs as <- ->. by rewrite (Hrec x1 k u' ltac:(lia) Hr). }
  destruct (Ascii.eqb c dquote).
  { injection Hs as <- Hx. by rewrite (app_inv_tail_s _ _ _ Hx). }
  destruct (N.ltb (code c) 32); [done|].
  destruct (Ascii.eqb c backslash).
  2:{ destruct (N.ltb (code c) 128).
      - destruct (scan_string 0 (x1 +:+ t)) as [[u' rest']|] eqn:Hr; [|done].
        injection Hs as <- ->. by rewrite (Hrec x1 0 u' ltac:(lia) Hr).
      - destruct (utf8_seq_len_app c x1 t) as [<-|Hlen].
        + destruct (utf8_seq_len c (x1 +:+ t)) as [|n].
          * destruct (scan_string 0 (x1 +:+ t)) as [[u' rest']|] eqn:Hr; [|done].
            injection Hs as <- ->. by rewrite (Hrec x1 0 u' ltac:(lia) Hr).
          * destruct (scan_string n (x1 +:+ t)) as [[u' rest']|] eqn:Hr; [|done].
            injection Hs as <- ->. by rewrite (Hrec x1 n u' ltac:(lia) Hr).
        + destruct (utf8_seq_len c (x1 +:+ t)) as [|n]; [simpl in Hlen; lia|].
          destruct (scan_string n (x1 +:+ t)) as [[u' rest']|] eqn:Hr; [|done].
          injection Hs as <- ->. apply scan_string_skip in Hr.
          rewrite ?length_app_s in Hr. lia. }
  destruct x1 as [|e x2]; app_s; cbv beta iota in Hs |- *.
  { leaves. }
  repeat (destruct (Ascii.eqb e _); [by leaves|]).
  destruct (Ascii.eqb e "u"); [|done].
  destruct x2 as [|h1 [|h2 [|h3 [|h4 x6]]]]; app_s; cbv beta iota in Hs |- *.
  1-4: leaves.
  destruct (getu4 h1 h2 h3 h4) as [rr|]; [|done].
  destruct x6 as [|a [|b [|g1 [|g2 [|g3 [|g4 x12]]]]]]; app_s; cbv beta iota in Hs |- *.
  1-6: leaves.
  unfold next_u4 in *. cbv beta iota in Hs |- *.
  leaves.
Qed.

(** From "reads the same without [t]" to "stops before [t]". *)
Lemma cut_of_local {O : Type} (f : string -> option (O * string)) (t : string) :
  (forall s o r, f s = Some (o, r) -> Suffix r s) ->
  (forall x o y, f (x +:+ t) = Some (o, y +:+ t) -> f x = Some (o, y)) ->
  forall x o r, f (x +:+ t) = Some (o, r) -> String.length t <= String.length r ->
  exists y, r = y +:+ t /\ f x = Some (o, y).
Proof.
  intros Hsuf Hloc x o r Hf Hl.
  destruct (Suffix_cut r x t (Hsuf _ _ _ Hf) Hl) as (y & -> & _). eauto.
Qed.

Lemma skip_ws_cut (x t : string) (c : ascii) (r : string) :
  skip_ws (x +:+ t) = String c r -> String.length t <= String.length r ->
  exists y, r = y +:+ t /\ skip_ws x = String c y.
Proof.
  intros Hs Hl. pose proof (skip_ws_Suffix (x +:+ t)) as Hsuf. rewrite Hs in Hsuf.
  destruct (Suffix_cut _ x t Hsuf ltac:(simpl; lia)) as (y & Hy & _).
  destruct y as [|d y]; app_s.
  { apply (f_equal String.length) in Hy. simpl in Hy. lia. }
  injection Hy as <- ->. exists y. split; [done|].
  by apply (skip_ws_local x t (String c y)).
Qed.

Lemma skip_ws_app (x t : string) :
  String.length t < String.length (skip_ws (x +:+ t)) ->
  skip_ws (x +:+ t) = skip_ws x +:+ t.
Proof.
  intros Hl. destruct (skip_ws (x +:+ t)) as [|c r] eqn:Hs; [simpl in Hl; lia|].
  apply skip_ws_cut in Hs as (y & -> & ->); [done|simpl in Hl; lia].
Qed.

Lemma scan_string_cut (t x : string) k u r :
  scan_string k (x +:+ t) = Some (u, r) -> String.length t <= String.length r ->
  exists y, r = y +:+ t /\ scan_string k x = Some (u, y).
Proof.
  apply (cut_of_local (scan_string k) t).
  - intros s o r'. apply scan_string_Suffix.
  - intros x' o y. apply scan_string_local.
Qed.

Lemma scan_word_cut (w t x r : string) :
  scan_word w (x +:+ t) = Some r -> String.length t <= String.length r ->
  exists y, r = y +:+ t /\ scan_word w x = Some y.
Proof.
  intros Hw Hl. destruct (Suffix_cut r x t (scan_word_Suffix _ _ _ Hw) Hl) as (y & -> & _).
  eauto using scan_word_local.
Qed.

Lemma scan_digits1_cut (t x : string) d r :
  scan_digits1 (x +:+ t) = Some (d, r) -> String.length t <= String.length r ->
  exists y, r = y +:+ t /\ scan_digits1 x = Some (d, y).
Proof.
  apply (cut_of_local scan_digits1 t).
  - apply scan_digits1_Suffix.
  - intros x' o y. apply scan_digits1_local.
Qed.

Lemma scan_int_cut (t x : string) d r :
  scan_int (x +:+ t) = Some (d, r) -> String.length t <= String.length r ->
  exists y, r = y +:+ t /\ scan_int x = Some (d, y).
Proof.
  intros Hi Hl. pose proof (scan_int_Suffix _ _ _ Hi) as Hsuf.
  destruct x as [|c x]; app_s.
  { exfalso. destruct t as [|c t]; [done|]. simpl in Hi.
    destruct (Ascii.eqb c "0").
    - injection Hi as _ <-. simpl in Hl. lia.
    - destruct (isDigit c); [|done]. apply scan_digits1_shorter in Hi. lia. }
  simpl in Hi |- *. destruct (Ascii.eqb c "0").
  - injection Hi as <- <-. eauto.
  - destruct (isDigit c); [|done].
    apply (scan_digits1_cut t (String c x)); by app_s.
Qed.

Lemma scan_frac_cut (t x : string) d r :
  scan_frac (x +:+ t) = Some (d, r) -> String.length t <= String.length r ->
  exists y, r = y +:+ t /\ scan_frac x = Some (d, y).
Proof.
  intros Hi Hl. destruct x as [|c x]; app_s.
  { exists EmptyString. app_s.
    destruct t as [|c t]; simpl in Hi; [by injection Hi as <- <-|].
    destruct (Ascii.eqb c "."); [|by injection Hi as <- <-].
    destruct (scan_digits1 t) as [[d' r']|] eqn:Hd; [|done]. injection Hi as <- <-.
    apply scan_digits1_shorter in Hd. simpl in Hl. lia. }
  simpl in Hi |- *. destruct (Ascii.eqb c ".").
  - destruct (scan_digits1 (x +:+ t)) as [[d' r']|] eqn:Hd; [|done]. injection Hi as <- <-.
    apply scan_digits1_cut in Hd as (y & -> & ->); eauto.
  - injection Hi as <- <-. by exists (String c x).
Qed.

Lemma scan_exp_cut (t x : string) d r :
  scan_exp (x +:+ t) = Some (d, r) -> String.length t <= String.length r ->
  exists y, r = y +:+ t /\ scan_exp x = Some (d, y).
Proof.
  intros Hi Hl. destruct x as [|c x]; app_s.
  { exists EmptyString. app_s.
    apply scan_exp_Suffix in Hi as Hsuf. apply Suffix_length in Hsuf.
    destruct t as [|c t]; simpl in Hi; [by injection Hi as <- <-|].
    destruct (Ascii.eqb c "e" || Ascii.eqb c "E")%bool; [|by injection Hi as <- <-].
    exfalso. destruct t as [|sg t]; [done|].
    destruct (Ascii.eqb sg "+" || Ascii.eqb sg "-")%bool.
    - destruct (scan_digits1 t) as [[d' r']|] eqn:Hd; [|done]. injection Hi as <- <-.
      apply scan_digits1_shorter in Hd. simpl in Hl. lia.
    - destruct (scan_digits1 (String sg t)) as [[d' r']|] eqn:Hd; [|done]. injection Hi as <- <-.
      apply scan_digits1_shorter in Hd. simpl in Hl, Hd. lia. }
  simpl in Hi |- *. destruct (Ascii.eqb c "e" || Ascii.eqb c "E")%bool.
  2:{ injection Hi as <- <-. by exists (String c x). }
  destruct x as [|sg x]; app_s.
  { exfalso. destruct t as [|sg t]; [done|].
    destruct (Ascii.eqb sg "+" || Ascii.eqb sg "-")%bool.
    - destruct (scan_digits1 t) as [[d' r']|] eqn:Hd; [|done]. injection Hi as <- <-.
      apply scan_digits1_shorter in Hd. simpl in Hl. lia.
    - destruct (scan_digits1 (String sg t)) as [[d' r']|] eqn:Hd; [|done]. injection Hi as <- <-.
      apply scan_digits1_shorter in Hd. simpl in Hl, Hd. lia. }
  destruct (Ascii.eqb sg "+" || Ascii.eqb sg "-")%bool.
  - destruct (scan_digits1 (x +:+ t)) as [[d' r']|] eqn:Hd; [|done]. injection Hi as <- <-.
    apply scan_digits1_cut in Hd as (y & -> & ->); eauto.
  - destruct (scan_digits1 (String sg (x +:+ t))) as [[d' r']|] eqn:Hd; [|done].
    injection Hi as <- <-.
    apply (scan_digits1_cut t (String sg x)) in Hd as (y & -> & ->); eauto.
Qed.

Lemma scan_number_cut (t x : string) lit r :
  scan_number (x +:+ t) = Some (lit, r) -> String.length t <= String.length r ->
  exists y, r = y +:+ t /\ scan_number x = Some (lit, y).
Proof.
  intros Hn Hl. pose proof (scan_number_shorter _ _ _ Hn) as Hsh.
  destruct x as [|c x]; app_s; [lia|]. clear Hsh.
  unfold scan_number in *.
  assert (exists sign p,
    (if Ascii.eqb c "-" then ("-", x +:+ t) else (EmptyString, String c (x +:+ t))) = (sign, p +:+ t) /\
    (if Ascii.eqb c "-" then ("-", x) else (EmptyString, String c x)) = (sign, p)) as (sign & p & Hh & Hg).
  { destruct (Ascii.eqb c "-"); [by exists "-", x|by exists EmptyString, (String c x)]. }
  rewrite Hh in Hn. rewrite Hg. clear Hh Hg.
  destruct (scan_int (p +:+ t)) as [[i s2]|] eqn:Hi; [|done].
  destruct (scan_frac s2) as [[f s3]|] eqn:Hf; [|done].
  destruct (scan_exp s3) as [[e s4]|] eqn:He; [|done].
  injection Hn as <- <-.
  pose proof (Suffix_length _ _ (scan_frac_Suffix _ _ _ Hf)).
  pose proof (Suffix_length _ _ (scan_exp_Suffix _ _ _ He)).
  apply scan_int_cut in Hi as (y2 & -> & ->); [|lia].
  apply scan_frac_cut in Hf as (y3 & -> & ->); [|lia].
  apply scan_exp_cut in He as (y4 & -> & ->); [|lia].
  eauto.
Qed.

Lemma consumed_cut (p y t : string) :
  Suffix y p -> consumed (p +:+ t) (y +:+ t) = consumed p y.
Proof.
  intros Hs. apply Suffix_app in Hs as [pre ->].
  by rewrite app_assoc_s, !consumed_app.
Qed.

Ltac lengths := rewrite ?length_app_s in *; cbn [String.length] in *; lia.

(** Cuts [t] off every intermediate input of a run that stops before [t]. *)
Ltac cuts t Cv Ce Cm :=
  repeat match goal with
    | H : scan_value _ _ (skip_ws (?p +:+ t)) = _ |- _ =>
        rewrite (skip_ws_app p t) in H by lengths
    | H : scan_elems _ _ (skip_ws (?p +:+ t)) = _ |- _ =>
        rewrite (skip_ws_app p t) in H by lengths
    | H : scan_members _ _ (skip_ws (?p +:+ t)) = _ |- _ =>
        rewrite (skip_ws_app p t) in H by lengths
    | H : skip_ws (?p +:+ t) = String _ ?r |- _ =>
        let y := fresh "y" in let E := fresh "E" in
        apply skip_ws_cut in H as (y & E & H); [|lengths];
        first [subst r|apply app_inv_tail_s in E; subst]
    | H : skip_ws (?p +:+ t) = String ?a ?q +:+ t |- _ =>
        apply (skip_ws_local p t (String a q)) in H; [|done]
    | H : context [String ?c (?p +:+ t)] |- _ => rewrite <- (app_cons_s c p t) in H
    | H : scan_string _ (?p +:+ t) = Some (_, ?r) |- _ =>
        let y := fresh "y" in let E := fresh "E" in
        apply scan_string_cut in H as (y & E & H); [|lengths];
        first [subst r|apply app_inv_tail_s in E; subst]
    | H : scan_number (?p +:+ t) = Some (_, ?r) |- _ =>
        let y := fresh "y" in let E := fresh "E" in
        apply scan_number_cut in H as (y & E & H); [|lengths];
        first [subst r|apply app_inv_tail_s in E; subst]
    | H : scan_word _ (?p +:+ t) = Some ?r |- _ =>
        let y := fresh "y" in let E := fresh "E" in
        apply scan_word_cut in H as (y & E & H); [|lengths];
        first [subst r|apply app_inv_tail_s in E; subst]
    | H : scan_value _ _ (?p +:+ t) = Some (_, ?r) |- _ =>
        let y := fresh "y" in let E := fresh "E" in
        apply Cv in H as (y & E & H); [|lengths];
        first [subst r|apply app_inv_tail_s in E; subst]
    | H : scan_elems _ _ (?p +:+ t) = Some (_, ?r) |- _ =>
        let y := fresh "y" in let E := fresh "E" in
        apply Ce in H as (y & E & H); [|lengths];
        first [subst r|apply app_inv_tail_s in E; subst]
    | H : scan_members _ _ (?p +:+ t) = Some (_, ?r) |- _ =>
        let y := fresh "y" in let E := fresh "E" in
        apply Cm in H as (y & E & H); [|lengths];
        first [subst r|apply app_inv_tail_s in E; subst]
    end.

Lemma scan_value_local (t : string) (fuel : nat) :
  (forall depth x v y, scan_value fuel depth (x +:+ t) = Some (v, y +:+ t) ->
     scan_value fuel depth x = Some (v, y)) /\
  (forall depth x vs y, scan_elems fuel depth (x +:+ t) = Some (vs, y +:+ t) ->
     scan_elems fuel depth x = Some (vs, y)) /\
  (forall depth x ms y, scan_members fuel depth (x +:+ t) = Some (ms, y +:+ t) ->
     scan_members fuel depth x = Some (ms, y)).
Proof.
  induction fuel as [|fuel (IHv & IHe & IHm)]; [by repeat split|].
  pose proof (scan_value_shorter fuel) as (Sv & Se & Sm).
  pose proof (scan_value_shorter (S fuel)) as (Sv' & Se' & Sm').
  pose proof (scan_value_forward fuel) as (Fv & Fe & Fm).
  assert (Cv : forall depth x v r, scan_value fuel depth (x +:+ t) = Some (v, r) ->
    String.length t <= String.length r ->
    exists y, r = y +:+ t /\ scan_value fuel depth x = Some (v, y)).
  { intros depth. apply (cut_of_local (scan_value fuel depth) t); [|by apply IHv].
    intros s o r Hs. by apply Fv in Hs as [? _]. }
  assert (Ce : forall depth x v r, scan_elems fuel depth (x +:+ t) = Some (v, r) ->
    String.length t <= String.length r ->
    exists y, r = y +:+ t /\ scan_elems fuel depth x = Some (v, y)).
  { intros depth. apply (cut_of_local (scan_elems fuel depth) t); [|by apply IHe].
    intros s o r Hs. by apply Fe in Hs. }
  assert (Cm : forall depth x v r, scan_members fuel depth (x +:+ t) = Some (v, r) ->
    String.length t <= String.length r ->
    exists y, r = y +:+ t /\ scan_members fuel depth x = Some (v, y)).
  { intros depth. apply (cut_of_local (scan_members fuel depth) t); [|by apply IHm].
    intros s o r Hs. by apply Fm in Hs as [? _]. }
  clear IHv IHe IHm.
  split; [|split]; intros depth x v y Hs.
  - pose proof (Sv' _ _ _ _ Hs) as Hlen. clear Sv' Se' Sm'.
    destruct x as [|c x]; app_s; [lengths|].
    cbn [scan_value scan_elems scan_members] in Hs.
    repeat case_match; simplify_eq; shorter_facts Sv Se Sm.
    all: cuts t Cv Ce Cm.
    all: cbn [scan_value scan_elems scan_members]; rewrite_matches; try done.
  - pose proof (Se' _ _ _ _ Hs) as Hlen. clear Sv' Se' Sm'.
    cbn [scan_value scan_elems scan_members] in Hs.
    repeat case_match; simplify_eq; shorter_facts Sv Se Sm.
    all: cuts t Cv Ce Cm.
    all: cbn [scan_value scan_elems scan_members]; rewrite_matches; try done.
  - pose proof (Sm' _ _ _ _ Hs) as Hlen. clear Sv' Se' Sm'.
    destruct x as [|c x]; app_s; [lengths|].
    cbn [scan_value scan_elems scan_members] in Hs.
    repeat case_match; simplify_eq; shorter_facts Sv Se Sm.
    all: cuts t Cv Ce Cm.
    all: cbn [scan_value scan_elems scan_members]; rewrite_matches; try done.
    all: match goal with
         | H : scan_value _ _ (skip_ws ?p) = Some (_, ?q) |- _ =>
             apply Fv in H as [H _];
             rewrite (skip_ws_app p t), (consumed_cut _ _ _ H) by lengths
         end; done.
Qed.

(** What is read some levels deep is read the same less deep. *)
Lemma scan_value_depth (fuel : nat) :
  (forall depth s r, scan_value fuel depth s = Some r ->
     forall depth', (depth' <= depth)%N -> scan_value fuel depth' s = Some r) /\
  (forall depth s r, scan_elems fuel depth s = Some r ->
     forall depth', (depth' <= depth)%N -> scan_elems fuel depth' s = Some r) /\
  (forall depth s r, scan_members fuel depth s = Some r ->
     forall depth', (depth' <= depth)%N -> scan_members fuel depth' s = Some r).
Proof.
  induction fuel as [|fuel (IHv & IHe & IHm)]; [by repeat split|].
  split; [|split]; intros depth s r Hs depth' Hd;
    cbn [scan_value scan_elems scan_members] in Hs;
    repeat case_match; simplify_eq;
    repeat match goal with
      | H : (maxNestingDepth <=? depth)%N = false |- _ =>
          assert ((maxNestingDepth <=? depth')%N = false)
            by (apply N.leb_gt; apply N.leb_gt in H; lia);
          clear H
      | H : scan_members fuel (N.succ depth) _ = Some _ |- _ =>
          apply IHm with (depth' := N.succ depth') in H; [|lia]
      | H : scan_elems fuel (N.succ depth) _ = Some _ |- _ =>
          apply IHe with (depth' := N.succ depth') in H; [|lia]
      | H : scan_members fuel depth _ = Some _ |- _ =>
          apply IHm with (depth' := depth') in H; [|lia]
      | H : scan_elems fuel depth _ = Some _ |- _ =>
          apply IHe with (depth' := depth') in H; [|lia]
      | H : scan_value fuel depth _ = Some _ |- _ =>
          apply IHv with (depth' := depth') in H; [|lia]
      end;
    cbn [scan_value scan_elems scan_members]; rewrite_matches; done.
Qed.

(** The bytes kept for a value are a JSON text of that value. *)
Lemma consumed_scan (fuel : nat) (depth : N) (r : string) (v : jvalue) (rest : string) :
  scan_value fuel depth (skip_ws r) = Some (v, rest) ->
  scan (consumed (skip_ws r) rest) = Some v.
Proof.
  intros Hv.
  pose proof (scan_value_forward fuel) as (Fv & _ & _).
  pose proof (scan_value_shorter fuel) as (Sv & _ & _).
  pose proof (Sv _ _ _ _ Hv) as Hlen.
  apply Fv in Hv as Hsuf. destruct Hsuf as [Hsuf _].
  apply Suffix_app in Hsuf as [pre Hpre]. rewrite Hpre in Hv |- *. rewrite consumed_app.
  assert (Hne : pre <> EmptyString).
  { intros ->. rewrite Hpre in Hlen. app_s. lia. }
  assert (Hws : skip_ws pre = pre).
  { apply (skip_ws_local pre rest pre); [|done]. rewrite <- Hpre.
    clear. induction r as [|c r IH]; simpl; [done|]. by destruct (isSpace c) eqn:Hc; [|simpl; rewrite Hc]. }
  apply scan_fuel with (fuel := fuel) (rest := EmptyString); [|done]. rewrite Hws.
  destruct (scan_value_local rest fuel) as (Lv & _ & _).
  destruct (scan_value_depth fuel) as (Dv & _ & _).
  eapply Dv; [|apply N.le_0_l]. by apply Lv.
Qed.

Lemma scan_members_scan (fuel : nat) : forall depth s ms rest,
  scan_members fuel depth s = Some (ms, rest) -> members_scan ms.
Proof.
  induction fuel as [|fuel IH]; [done|]. intros depth s ms rest Hs.
  cbn [scan_value scan_elems scan_members] in Hs.
  repeat case_match; simplify_eq.
  - constructor; [|eapply IH; eassumption]. simpl. eapply consumed_scan. eassumption.
  - constructor; [|constructor]. simpl. eapply consumed_scan. eassumption.
Qed.

Lemma scan_members_of data ms : scan data = Some (JObject ms) -> members_scan ms.
Proof.
  unfold scan.
  destruct (scan_value _ 0 (skip_ws data)) as [[v rest]|] eqn:Hv; [|done].
  destruct (skip_ws rest); [|done]. intros [= ->].
  replace (2 * String.length data + 2) with (S (2 * String.length data + 1)) in Hv by lia.
  cbn [scan_value scan_elems scan_members] in Hv.
  repeat case_match; simplify_eq;
    first [by constructor|eapply scan_members_scan; eassumption].
Qed.

Lemma last_raw_scan name ms : members_scan ms -> forall d,
  last_raw name ms d = d \/ exists v, scan (last_raw name ms d) = Some v.
Proof.
  induction 1 as [|[key [raw v]] ms Hm _ IH]; intros d; simpl; [by left|].
  destruct (names name key); [|apply IH].
  destruct (IH raw) as [->|?]; [|by right]. right. eauto.
Qed.

Lemma envelope_data_scan body :
  envelope_data body = EmptyString \/ exists v, scan (envelope_data body) = Some v.
Proof.
  unfold envelope_data. destruct (scan body) as [[| | | | |ms]|] eqn:Hs; auto.
  apply last_raw_scan. by apply scan_members_of in Hs.
Qed.

(** ** How [do] fails *)

Section Failing.
Context `{Environment} {A : Type} `{!Marshaler A}.

Lemma do_Err_cases (s : Store) (method path : string) (body : option A) (err : error) :
  (do method path body s).1 = Err err -> do_error err.
Proof.
  rewrite do_run. unfold request_of, marshal_body, answer, parse_response.
  intros Hr. repeat case_match; simplify_eq/=; constructor.
Qed.

(** X1.  Every error [do] returns is one of seven: an error of
    [json.Marshal], [http.NewRequest], the HTTP client or [io.ReadAll]
    under the text [do] puts before it, a JSON decoding error under
    [error unmarshaling response] or [error unmarshaling error response],
    or a [*Error] decoded from the response body. *)
Theorem do_error_classes (s : Store) (method path : string) (body : option A) (err : error) :
  (do method path body s).1 = Err err -> do_error err.
Proof. apply do_Err_cases. Qed.

(** X2.  [do] hands at most one request to the HTTP client, after those
    sent before, which stay as they were; it hands over none exactly when
    the request cannot be built, that is when the body cannot be encoded
    or [http.NewRequest] fails. *)
Theorem do_sends_once (s : Store) (method path : string) (body : option A) :
  sent (do method path body s).2 = (sent s ++ issued (do method path body) s)%list /\
  List.length (issued (do method path body) s) <= 1 /\
  (issued (do method path body) s = [] <->
   exists err, request_of (client s) method path body = Err err).
Proof.
  rewrite issued_do, do_run.
  destruct (request_of (client s) method path body) as [req|err]; simpl.
  - split; [done|]. split; [lia|]. split; [done|]. by intros [? ?].
  - rewrite app_nil_r. split; [done|]. split; [lia|]. split; eauto.
Qed.

(** X3.  When [json.Marshal] fails on the body, [do] returns that error
    under [error marshaling request body] and sends nothing: the store is
    as it was. *)
Theorem do_marshal_error (s : Store) (method path : string) (b : A) (err : error) :
  json_Marshal b = Err err ->
  do method path (Some b) s = (Err (Errorf "error marshaling request body" err), s).
Proof.
  intros Hm. rewrite do_run. unfold request_of, marshal_body. by rewrite Hm.
Qed.


(** X5.  When the HTTP client fails on the request, [do] returns its
    error under [error performing request]; the request has been handed
    over, and the client is as it was. *)
Theorem do_transport_error (s : Store) (method path : string) (body : option A)
    (req : Request) (err : error) :
  request_of (client s) method path body = Ok req ->
  Do (HTTPClient (client s)) (sent s) req = Err err ->
  do method path body s =
    (Err (Errorf "error performing request" err),
     {| client := client s; sent := sent s ++ [req] |}).
Proof. intros Hreq Hdo. rewrite do_run, Hreq. unfold answer. by rewrite Hdo. Qed.

(** X6.  When the response body cannot be read, [do] returns the error
    of [io.ReadAll] under [error reading response body], whatever the
    status code. *)
Theorem do_read_error (s : Store) (method path : string) (body : option A)
    (req : Request) (resp : HTTPResponse) (err : error) :
  request_of (client s) method path body = Ok req ->
  Do (HTTPClient (client s)) (sent s) req = Ok resp ->
  ReadAll resp = Err err ->
  (do method path body s).1 = Err (Errorf "error reading response body" err).
Proof. intros Hreq Hdo Hr. rewrite do_run, Hreq. unfold answer. by rewrite Hdo, Hr. Qed.

(** X7.  When the response body is not a JSON text, [do] returns a
    syntax error: under [error unmarshaling response] when the status
    code is 200, under [error unmarshaling error response] otherwise. *)
Theorem do_invalid_json (s : Store) (method path : string)
    (body : option A) (req : Request) (resp : HTTPResponse) (respBody : bytes) :
  request_of (client s) method path body = Ok req ->
  Do (HTTPClient (client s)) (sent s) req = Ok resp ->
  ReadAll resp = Ok respBody ->
  scan respBody = None ->
  (do method path body s).1 =
    Err (Errorf (if (StatusCode resp =? 200)%Z then "error unmarshaling response"
                 else "error unmarshaling error response")
           (jsonError SyntaxError)).
Proof.
  intros Hreq Hdo Hread Hscan. rewrite do_run, Hreq. unfold answer, parse_response.
  rewrite Hdo, Hread. simpl.
  unfold Unmarshal_Response, Unmarshal_Error, Unmarshal. rewrite Hscan.
  by destruct (StatusCode resp =? StatusOK)%Z eqn:Hc; unfold StatusOK in Hc; rewrite Hc.
Qed.

Lemma request_of_body (c : Client) (method path : string) (body : option A) (req : Request) :
  request_of c method path body = Ok req -> marshal_body body = Ok (Body req).
Proof.
  unfold request_of, NewRequest.
  destruct (marshal_body body) as [bodyReader|err]; [|done].
  destruct (negb (validMethod _)); [done|].
  destruct (url_Parse_error _); [done|]. by intros [= <-].
Qed.

(** X8.  Every request [do] hands to the HTTP client has the method
    [do] was given ([GET] for the empty one), the client's base URL
    followed by the path as its URL, and as its body what [json.Marshal]
    gives for the body [do] was given, or none when that is [nil]. *)
Theorem do_request_shape (s : Store) (method path : string) (body : option A) :
  Forall
    (fun r =>
       Method r = (if String.eqb method EmptyString then "GET" else method) /\
       URL r = BaseURL (client s) +:+ path /\
       match body with
       | None => Body r = None
       | Some b => exists bodyBytes, json_Marshal b = Ok bodyBytes /\ Body r = Some bodyBytes
       end)
    (issued (do method path body) s).
Proof.
  rewrite issued_do.
  destruct (request_of (client s) method path body) as [req|err] eqn:Hreq; [|constructor].
  constructor; [|constructor].
  apply request_of_shape in Hreq as Hs. destruct Hs as (Hm & Hu & _).
  split; [done|]. split; [done|].
  apply request_of_body in Hreq. unfold marshal_body in Hreq.
  destruct body as [b|]; [|by injection Hreq].
  destruct (json_Marshal b) as [bodyBytes|e]; [|done].
  exists bodyBytes. split; [done|]. by injection Hreq.
Qed.

(** What one [post] does to the store. *)
Lemma post_effect (path : string) (body : option A)
    (s s' : Store) (r : result Response) :
  post path body s = (r, s') ->
  client s' = client s /\
  ((sent s' = sent s /\ exists err, r = Err err) \/
   exists req, sent s' = (sent s ++ [req])%list /\
     Method req = "POST" /\ URL req = BaseURL (client s) +:+ path /\
     Req_Header req = expected_headers (client s) /\
     marshal_body body = Ok (Body req)).
Proof.
  unfold post. rewrite do_run.
  destruct (request_of (client s) MethodPost path body) as [req|err] eqn:Hreq;
    intros [= <- <-]; (split; [done|]).
  - right. exists req. split; [done|].
    apply request_of_body in Hreq as Hb. apply request_of_shape in Hreq as (Hm & Hu & Hh).
    by repeat split.
  - left. eauto.
Qed.

(** An envelope [do] returns was decoded from some response body. *)
Lemma do_Ok_decoded (method path : string) (body : option A) (s : Store) (env : Response) :
  (do method path body s).1 = Ok env ->
  exists respBody, Unmarshal_Response respBody = inr env.
Proof.
  rewrite do_run. unfold answer, parse_response.
  intros Hr. repeat case_match; simplify_eq/=; eauto.
Qed.

End Failing.

(** ** How the methods fail, and what they decode *)

Ltac fold_field_names :=
  unfold names;
  repeat match goal with
    | |- context [foldName (String ?c ?r)] =>
        let v := eval vm_compute in (foldName (String c r)) in
        change (foldName (String c r)) with v
    end.

Ltac split_field_names :=
  repeat match goal with
    | |- context [String.eqb ?a (foldName ?k)] =>
        destruct (String.eqb_spec a (foldName k)); try congruence
    end.

Section Decoding.
Context `{Environment}.

Lemma dec_members_agree ms : forall e e' x,
  dec_members Error_fields ms e = Some e' -> agree x e ->
  exists x', dec_members Response_fields ms x = Some x' /\ agree x' e'.
Proof.
  induction ms as [|[key [raw v]] ms IH]; intros e e' x; cbn [dec_members].
  - intros [= <-] Ha. eauto.
  - rewrite !find_field_folded by (apply Response_fields_NoDup || apply Error_fields_NoDup).
    cbn [byFoldedName Response_fields Error_fields]. fold_field_names. split_field_names;
      unfold field, raw_field, agree; intros Hd (Hs & Ht & Hf & Hda);
      rewrite ?Hs, ?Ht; repeat case_match; simplify_eq/=;
      try (eapply IH; [eassumption|]; unfold agree; simpl; repeat split; congruence).
Qed.

Lemma Unmarshal_agree (body : bytes) (e : Error) :
  Unmarshal_Error body = inr e ->
  exists env, Unmarshal_Response body = inr env /\ agree env e.
Proof.
  unfold Unmarshal_Error, Unmarshal_Response, Unmarshal.
  destruct (scan body) as [v|]; [|done].
  destruct (dec_struct Error_fields v Error_zero) as [x|] eqn:Hd; [|done].
  intros [= <-]. destruct v; simpl in Hd |- *; simplify_eq.
  - eexists. split; [done|]. by repeat split.
  - eapply (dec_members_agree _ _ _ Response_zero) in Hd as (x' & -> & Ha); [eauto|].
    by repeat split.
Qed.

(** X9.  A body that decodes as an error envelope decodes as an
    envelope too, and the two have the same [Status], [Time], [Flags] and
    [Data]: [Error] is [Response] with two more fields. *)
Theorem Unmarshal_Error_Response (body : bytes) (e : Error) :
  Unmarshal_Error body = inr e ->
  exists env, Unmarshal_Response body = inr env /\ agree env e.
Proof. apply Unmarshal_agree. Qed.

(** X10.  When the response has the status code 200 and [do] returns an
    error: a [*Error] it returns never has the status [success], and the
    error is never a syntax error under [error unmarshaling error
    response], since the body has decoded once by then. *)
Theorem do_200_error (s : Store) (method path : string) {A : Type} `{!Marshaler A}
    (body : option A) (req : Request) (resp : HTTPResponse) (respBody : bytes) (err : error) :
  request_of (client s) method path body = Ok req ->
  Do (HTTPClient (client s)) (sent s) req = Ok resp ->
  ReadAll resp = Ok respBody ->
  StatusCode resp = 200%Z ->
  (do method path body s).1 = Err err ->
  (forall e, err = apiError e -> Error_Status e <> "success") /\
  err <> Errorf "error unmarshaling error response" (jsonError SyntaxError).
Proof.
  intros Hreq Hdo Hread Hcode. rewrite do_run, Hreq. unfold answer, parse_response.
  rewrite Hdo, Hread, Hcode. simpl.
  destruct (Unmarshal_Response respBody) as [je|apiResp] eqn:Hr.
  { intros [= <-]. split; [by intros e|]. intros [=]. }
  destruct (String.eqb_spec (Status apiResp) "success") as [Hs|Hs]; simpl; [done|].
  destruct (Unmarshal_Error respBody) as [je|e] eqn:He; intros [= <-].
  - split; [by intros e|]. intros [= ->].
    unfold Unmarshal_Response, Unmarshal_Error, Unmarshal in Hr, He.
    destruct (scan respBody); [|done]. by destruct (dec_struct Error_fields _ _).
  - split; [|done]. intros e0 [= <-].
    apply Unmarshal_agree in He as (env & Henv & Hst & _).
    rewrite Hr in Henv. injection Henv as <-. by rewrite <- Hst.
Qed.

(** X11.  The [Data] of an envelope [do] returns is empty or a JSON
    text: the decoder hands [json.RawMessage] the bytes of one value. *)
Theorem do_data_valid {A : Type} `{!Marshaler A} (method path : string) (body : option A)
    (s : Store) (env : Response) :
  (do method path body s).1 = Ok env ->
  Data env = EmptyString \/ exists v, scan (Data env) = Some v.
Proof.
  intros Hdo. apply do_Ok_decoded in Hdo as [respBody Hd].
  apply Unmarshal_Response_Data in Hd as ->. apply envelope_data_scan.
Qed.

Lemma SendMessageResponse_fields_NoDup :
  NoDup (map (fun f => foldName f.1) SendMessageResponse_fields).
Proof. apply (bool_decide_unpack _). by vm_compute. Qed.

Lemma Message_fields_NoDup : NoDup (map (fun f => foldName f.1) Message_fields).
Proof. apply (bool_decide_unpack _). by vm_compute. Qed.

Lemma Delivery_fields_NoDup : NoDup (map (fun f => foldName f.1) Delivery_fields).
Proof. apply (bool_decide_unpack _). by vm_compute. Qed.

Ltac decode_step IH :=
  fold_field_names; split_field_names;
  unfold field, raw_field, dec_string, dec_int; intros Hd;
  repeat case_match; simplify_eq/=;
  repeat match goal with Hp : ParseInt _ = Some _ |- _ => rewrite Hp; clear Hp end;
  try (apply IH in Hd; simpl in Hd; exact Hd).

Lemma dec_members_SendMessageResponse ms : forall x y,
  dec_members SendMessageResponse_fields ms x = Some y ->
  models.MessageID y = last_int "message_id" ms (models.MessageID x) /\
  models.Token y = last_string "token" ms (models.Token x).
Proof.
  induction ms as [|[key [raw v]] ms IH]; intros x y; cbn [dec_members last_int last_string].
  - by intros [= <-].
  - rewrite find_field_folded by apply SendMessageResponse_fields_NoDup.
    cbn [byFoldedName SendMessageResponse_fields]. decode_step IH.
Qed.

Lemma dec_members_Message ms : forall x y,
  dec_members Message_fields ms x = Some y ->
  models.Message_ID y = last_int "id" ms (models.Message_ID x) /\
  models.Message_Token y = last_string "token" ms (models.Message_Token x).
Proof.
  induction ms as [|[key [raw v]] ms IH]; intros x y; cbn [dec_members last_int last_string].
  - by intros [= <-].
  - rewrite find_field_folded by apply Message_fields_NoDup.
    cbn [byFoldedName Message_fields]. decode_step IH.
Qed.

Lemma dec_members_Delivery ms : forall x y,
  dec_members Delivery_fields ms x = Some y ->
  models.Delivery_ID y = last_int "id" ms (models.Delivery_ID x) /\
  models.Delivery_Status y = last_string "status" ms (models.Delivery_Status x) /\
  models.Delivery_Details y = last_string "details" ms (models.Delivery_Details x).
Proof.
  induction ms as [|[key [raw v]] ms IH]; intros x y; cbn [dec_members last_int last_string].
  - by intros [= <-].
  - rewrite find_field_folded by apply Delivery_fields_NoDup.
    cbn [byFoldedName Delivery_fields]. decode_step IH.
Qed.

Lemma dec_elems_Delivery vs : forall ds,
  dec_elems Delivery_zero (dec_struct Delivery_fields) vs [] = Some ds ->
  Forall2 delivery_matches ds vs.
Proof.
  induction vs as [|v vs IH]; intros ds; simpl.
  - intros [= <-]. constructor.
  - destruct (dec_struct Delivery_fields v Delivery_zero) as [d|] eqn:Hd; [|done].
    destruct (dec_elems _ _ vs []) as [ds'|]; [|done]. intros [= <-].
    constructor; [|auto].
    destruct v; simpl in Hd; simplify_eq; try done.
    by apply dec_members_Delivery in Hd.
Qed.

(** X12.  What a method returns without an error is what the [Data] of
    the envelope says: [MessageID] and [Token] of a send response are
    the members [message_id] and [token] of the object, [ID] and [Token]
    of a message the members [id] and [token], and the deliveries are
    the elements of the array, one for one and in order, each with the
    [id], [status] and [details] of its element. *)
Theorem call_fields (ep : endpoint) (s : Store) (env : Response) (v : value) :
  (endpoint_post ep s).1 = Ok env ->
  (call ep s).1 = Ok v ->
  value_matches v (Data env).
Proof.
  intros Hpost. rewrite call_run, Hpost. simpl.
  destruct (decode_value ep (Data env)) as [je|v'] eqn:Hd; [done|]. intros [= <-].
  destruct ep; simpl in Hd;
    unfold Unmarshal_SendMessageResponse, Unmarshal_Message, Unmarshal_Deliveries,
      Unmarshal in Hd;
    unfold value_matches, member_int, member_string;
    destruct (scan (Data env)) as [j|]; try done;
    repeat case_match; simplify_eq/=;
    try (split; reflexivity); try reflexivity;
    try (match goal with Hm : dec_members _ _ _ = Some _ |- _ =>
           first [ by apply dec_members_SendMessageResponse in Hm
                 | by apply dec_members_Message in Hm ] end);
    try (by apply dec_elems_Delivery).
Qed.

Lemma decode_value_SyntaxError (ep : endpoint) (data : bytes) :
  decode_value ep data = inl SyntaxError <-> scan data = None.
Proof.
  destruct ep; simpl;
    unfold Unmarshal_SendMessageResponse, Unmarshal_Message, Unmarshal_Deliveries, Unmarshal;
    destruct (scan data) as [v|]; try done;
    repeat case_match; split; congruence.
Qed.

(** X13.  For each of the four methods, after a transport call that
    returned an envelope: the method fails with a syntax error under its
    parsing-error text exactly when the envelope's [Data] is empty. *)
Theorem call_syntax_error (ep : endpoint) (s : Store) (env : Response) :
  (endpoint_post ep s).1 = Ok env ->
  (call ep s).1 = Err (Errorf (parse_error_text ep) (jsonError SyntaxError)) <->
  Data env = EmptyString.
Proof.
  intros Hpost. rewrite call_run, Hpost.
  assert (Hd : Data env = EmptyString \/ exists v, scan (Data env) = Some v).
  { destruct ep; unfold endpoint_post, post in Hpost;
      apply do_Ok_decoded in Hpost as [respBody Hd];
      apply Unmarshal_Response_Data in Hd as ->; apply envelope_data_scan. }
  split.
  - destruct (decode_value ep (Data env)) as [je|v] eqn:Hv; [|done].
    intros [= ->]. apply decode_value_SyntaxError in Hv.
    destruct Hd as [?|[v Hs]]; [done|congruence].
  - intros Hdata.
    assert (Hv : decode_value ep (Data env) = inl SyntaxError).
    { apply decode_value_SyntaxError. by rewrite Hdata. }
    by rewrite Hv.
Qed.

(** X14.  For each of the four methods: when the [Data] of the envelope
    is [null], the method returns the zero value of its result, a
    response or message with no field set or no deliveries, and no
    error. *)
Theorem call_null_data (ep : endpoint) (s : Store) (env : Response) :
  (endpoint_post ep s).1 = Ok env ->
  Data env = "null" ->
  (call ep s).1 = Ok (zero_value ep).
Proof. intros Hpost Hd. rewrite call_run, Hpost, Hd. by destruct ep. Qed.

(** X15.  Every error one of the four methods returns is an error of
    [do] or a JSON decoding error under the method's parsing-error
    text. *)
Theorem call_error_classes (ep : endpoint) (s : Store) (err : error) :
  (call ep s).1 = Err err -> call_error (parse_error_text ep) err.
Proof.
  rewrite call_run.
  destruct ((endpoint_post ep s).1) as [env|e] eqn:Hpost.
  - destruct (decode_value ep (Data env)); [|done]. intros [= <-]. apply parsing_error.
  - intros [= <-]. apply transport_error.
    destruct ep; unfold endpoint_post, post in Hpost;
      exact (do_Err_cases _ _ _ _ _ Hpost).
Qed.

(** X16.  Every request one of the four methods hands to the HTTP
    client carries the JSON encoding of the method's argument as its
    body: the request for the two sending methods, the map with the one
    key [id] for [GetMessage] and [GetMessageDeliveries]. *)
Theorem call_body (ep : endpoint) (s : Store) :
  Forall (fun r => Body r = Some (endpoint_body ep)) (issued (call ep) s).
Proof.
  rewrite issued_call.
  destruct ep; unfold endpoint_post, post; rewrite issued_do;
    unfold request_of, marshal_body, json_Marshal, NewRequest,
      Marshal_SendMessageRequest, Marshal_SendRawRequest, Marshal_map;
    simpl; destruct (url_Parse_error _); by repeat constructor.
Qed.

End Decoding.

(** ** The error text and the constructors *)

Section Texts.
Context `{Environment}.

Lemma dec_members_Error_Status ms : forall x y,
  dec_members Error_fields ms x = Some y ->
  Error_Status y = last_string "status" ms (Error_Status x).
Proof.
  induction ms as [|[key [raw v]] ms IH]; intros x y; cbn [dec_members last_string].
  - by intros [= <-].
  - rewrite find_field_folded by apply Error_fields_NoDup.
    cbn [byFoldedName Error_fields]. fold_field_names. split_field_names;
      unfold field, raw_field, dec_string; intros Hd; repeat case_match; simplify_eq;
      apply IH in Hd; exact Hd.
Qed.

Lemma Unmarshal_Error_Status body e :
  Unmarshal_Error body = inr e -> Error_Status e = envelope_status body.
Proof.
  unfold Unmarshal_Error, Unmarshal, envelope_status.
  destruct (scan body) as [v|]; [|done].
  destruct (dec_struct Error_fields v Error_zero) as [x|] eqn:Hd; [|done].
  intros [= <-]. destruct v; simpl in Hd; simplify_eq; try done.
  by apply dec_members_Error_Status in Hd.
Qed.

(** X20.  Whenever [do] returns a [*Error], at whatever status code, the
    text its method [Error] gives is [postal API error: ] followed by the
    [status] member of the response body, [ - ] and the [message] member
    of the response body. *)
Theorem do_error_text {A : Type} `{!Marshaler A} (s : Store) (method path : string)
    (body : option A) (req : Request) (resp : HTTPResponse) (respBody : bytes) (e : Error) :
  request_of (client s) method path body = Ok req ->
  Do (HTTPClient (client s)) (sent s) req = Ok resp ->
  ReadAll resp = Ok respBody ->
  (do method path body s).1 = Err (apiError e) ->
  Error_Error e =
    "postal API error: " +:+ envelope_status respBody +:+ " - " +:+ envelope_message respBody.
Proof.
  intros Hreq Hdo Hread. rewrite do_run, Hreq. unfold answer, parse_response.
  rewrite Hdo, Hread. simpl. intros Hr.
  assert (He : Unmarshal_Error respBody = inr e).
  { repeat case_match; simplify_eq/=; done. }
  unfold Error_Error.
  by rewrite (Unmarshal_Error_Status _ _ He), (Unmarshal_Error_Message _ _ He).
Qed.

(** X21.  A client made by [NewClient] or [NewClientWithOptions] has the
    timeout given, or the default one, on its HTTP client; and every
    request one of its four methods hands over goes to the base URL
    given, or the default one, followed by the method's path, and carries
    the API key given. *)
Theorem NewClient_requests (apiKey baseURL : string) (timeout : Z) (c : Client)
    (ep : endpoint) (net : list Request) :
  c = NewClientWithOptions apiKey baseURL timeout \/
  (c = NewClient apiKey /\ baseURL = DefaultBaseURL /\ timeout = DefaultTimeout) ->
  Timeout (HTTPClient c) = timeout /\
  Forall
    (fun r => URL r = baseURL +:+ endpoint_path ep /\
              Header_Get "X-Server-API-Key" (Req_Header r) = apiKey)
    (issued (call ep) {| client := c; sent := net |}).
Proof.
  intros Hc.
  assert (Hf : Timeout (HTTPClient c) = timeout /\ BaseURL c = baseURL /\ APIKey c = apiKey).
  { by destruct Hc as [->|(-> & -> & ->)]. }
  destruct Hf as (Ht & Hb & Hk). split; [done|].
  rewrite issued_call. destruct (issued_endpoint_post ep {| client := c; sent := net |}) as [b ->].
  simpl. destruct (url_Parse_error _); [constructor|].
  constructor; [|constructor]. simpl. rewrite Hb, <- Hk. by split.
Qed.

End Texts.

(** ** What the examples do *)

Section Running.
Context `{Environment}.

Ltac method_effect_tac :=
  intros Hm;
  match goal with
  | Hm : context [post ?p ?b ?s] |- _ =>
      let r0 := fresh "r" in
      let s0 := fresh "s" in
      let Hp := fresh "Hp" in
      let Hc := fresh "Hc" in
      destruct (post p b s) as [r0 s0] eqn:Hp;
      apply post_effect in Hp as (Hc & Hp);
      unfold marshal_body, json_Marshal, Marshal_SendMessageRequest,
        Marshal_SendRawRequest, Marshal_map in Hp;
      split; [destruct r0; repeat case_match; by simplify_eq/=|];
      destruct Hp as [(? & ? & ->)|(rq & ? & ? & ? & ? & ?)];
        [left; simplify_eq/=; eauto
        |right; exists rq; destruct r0; repeat case_match; simplify_eq/=; by repeat split]
  end.

Lemma SendMessage_effect req s s' r :
  SendMessage req s = (r, s') ->
  method_effect "/send/message" (encode_SendMessageRequest req) s s' r.
Proof. unfold SendMessage, mbind, M_bind, bind, mret, M_ret, ret. method_effect_tac. Qed.

Lemma SendRaw_effect req s s' r :
  SendRaw req s = (r, s') ->
  method_effect "/send/raw" (encode_SendRawRequest req) s s' r.
Proof. unfold SendRaw, mbind, M_bind, bind, mret, M_ret, ret. method_effect_tac. Qed.

Lemma GetMessage_effect id s s' r :
  GetMessage id s = (r, s') ->
  method_effect "/messages/message" (encode_map {[ "id" := id ]}) s s' r.
Proof. unfold GetMessage, mbind, M_bind, bind, mret, M_ret, ret. method_effect_tac. Qed.

Lemma GetMessageDeliveries_effect id s s' r :
  GetMessageDeliveries id s = (r, s') ->
  method_effect "/messages/deliveries" (encode_map {[ "id" := id ]}) s s' r.
Proof. unfold GetMessageDeliveries, mbind, M_bind, bind, mret, M_ret, ret. method_effect_tac. Qed.

Lemma example_client (apiKey baseURL : string) :
  let c := if negb (String.eqb baseURL EmptyString)
           then set_BaseURL baseURL (NewClient apiKey) else NewClient apiKey in
  APIKey c = apiKey /\ BaseURL c = example_base baseURL.
Proof. unfold example_base. by destruct (String.eqb baseURL EmptyString). Qed.

Ltac example_step :=
  match goal with
  | |- context [SendMessage ?r ?s] =>
      let Hm := fresh "Hm" in
      destruct (SendMessage r s) as [? ?] eqn:Hm; apply SendMessage_effect in Hm
  | |- context [SendRaw ?r ?s] =>
      let Hm := fresh "Hm" in
      destruct (SendRaw r s) as [? ?] eqn:Hm; apply SendRaw_effect in Hm
  | |- context [GetMessage ?i ?s] =>
      let Hm := fresh "Hm" in
      destruct (GetMessage i s) as [? ?] eqn:Hm; apply GetMessage_effect in Hm
  | |- context [GetMessageDeliveries ?i ?s] =>
      let Hm := fresh "Hm" in
      destruct (GetMessageDeliveries i s) as [? ?] eqn:Hm;
      apply GetMessageDeliveries_effect in Hm
  end;
  match goal with
  | Hm : method_effect _ _ _ _ ?r |- _ =>
      destruct Hm as (? & [(? & ? & ->)|(? & ? & ? & ? & ? & ?)]); [|destruct r]
  end.

(** X17.  Both example programs, on whatever network: the requests
    they hand over come after those the network has seen and are at most
    three, POSTs to the sending endpoint, [/messages/message] and
    [/messages/deliveries] under the base URL, in this order and each with
    the API key in its header; the base URL is the one given, or the
    default one when that is empty; a run that does not end in
    [log.Fatalf] has sent all three. *)
Theorem example_requests (which : example) (apiKey baseURL : string) (net : list Request) :
  let run := run_example which apiKey baseURL net in
  let reqs := drop (List.length net) (sent run.2) in
  sent run.2 = (net ++ reqs)%list /\
  APIKey (client run.2) = apiKey /\
  BaseURL (client run.2) = example_base baseURL /\
  map URL reqs `prefix_of` example_urls which baseURL /\
  Forall (fun r => Method r = "POST" /\
                   Header_Get "X-Server-API-Key" (Req_Header r) = apiKey) reqs /\
  (existsb is_Fatalf run.1 = false -> List.length reqs = 3).
Proof.
  destruct (example_client apiKey baseURL) as [Hk Hb].
  unfold example_urls. rewrite <- Hb. clear Hb.
  destruct which; cbv zeta; unfold run_example, message.SendExample, raw.SendExample;
    cbv zeta; set (c := if negb _ then _ else _) in *; clearbody c;
    repeat example_step; simpl;
    repeat match goal with
      | Hc : client _ = _ |- _ => rewrite Hc in *
      | Hs : sent _ = _ |- _ => rewrite Hs in *
      end; simpl;
    rewrite <- ?app_assoc; rewrite ?drop_app_length; simpl;
    rewrite ?app_nil_r, ?drop_all; simpl.
  all: repeat match goal with Hu : URL _ = _ |- _ => rewrite Hu; clear Hu end.
  all: rewrite ?app_nil_r.
  all: split; [done|]; split; [done|]; split; [done|]; split; [by eexists|].
  all: split; [|done].
  all: repeat constructor; try done.
  all: match goal with Hh : Req_Header ?x = _ |- context [Req_Header ?x] => by rewrite Hh end.
Qed.


Lemma print_deliveries_lookup (ds : list models.Delivery) : forall (k : Z) (i : nat),
  print_deliveries k ds !! i =
  (fun d => Printf ("Delivery %d - Status: %s, Details: %s" +:+ newline)
              [ArgInt (k + Z.of_nat i + 1); ArgString (models.Delivery_Status d);
               ArgString (models.Delivery_Details d)]) <$> ds !! i.
Proof.
  induction ds as [|d ds IH]; intros k i; [done|]. destruct i as [|i]; simpl.
  - by rewrite Z.add_0_r.
  - rewrite IH. destruct (ds !! i); simpl; [|done].
    by replace (k + 1 + Z.of_nat i + 1)%Z with (k + Z.pos (Pos.of_succ_nat i) + 1)%Z by lia.
Qed.

Lemma print_deliveries_length (ds : list models.Delivery) (k : Z) :
  List.length (print_deliveries k ds) = List.length ds.
Proof. revert k. induction ds as [|d ds IH]; intros k; simpl; [done|]. by rewrite IH. Qed.

Lemma print_deliveries_no_Fatalf (ds : list models.Delivery) (k : Z) :
  existsb is_Fatalf (print_deliveries k ds) = false.
Proof. revert k. induction ds as [|d ds IH]; intros k; simpl; [done|]. apply IH. Qed.


End Running.

(** ** The statements at work

    The lemmas above applied to the test doubles, and the inputs on which
    the wider readings fail. *)

Import Stub.

Lemma do_success_witness :
  (do MethodPost "/send/message" send_body (store 200 success_body)).1 =
    Ok {| Status := "success"; Time := "0"; Flags := EmptyString;
          Data := q "{'message_id':123,'token':'t'}" |} /\
  q "{'message_id':123,'token':'t'}" = envelope_data success_body /\
  Occurs (q "{'message_id':123,'token':'t'}") success_body.
Proof.
  eapply (do_success (store 200 success_body) MethodPost "/send/message" send_body);
    [reflexivity | reflexivity | reflexivity | reflexivity
    | vm_compute; reflexivity | reflexivity].
Defined.

(** C1 as it was written fails: a response with status 201 is in the
    2xx range and carries a well-formed [success] envelope, and [do]
    returns an error made of that envelope. *)
Lemma do_success_fails_at_201 :
  let s := store 201 success_body in
  exists req resp env,
    request_of (client s) MethodPost "/send/message" send_body = Ok req /\
    Do (HTTPClient (client s)) (sent s) req = Ok resp /\
    ReadAll resp = Ok success_body /\
    (200 <= StatusCode resp < 300)%Z /\
    Unmarshal_Response success_body = inr env /\
    Status env = "success" /\
    (do MethodPost "/send/message" send_body s).1 <> Ok env /\
    (do MethodPost "/send/message" send_body s).1 =
      Err (apiError {| Error_Status := "success"; Error_Time := "0"; Error_Flags := EmptyString;
                       Error_Data := q "{'message_id':123,'token':'t'}";
                       ErrorCode := EmptyString; Message := EmptyString |}).
Proof.
  cbv zeta. eexists _, _, _.
  split; [reflexivity|]. split; [reflexivity|]. split; [reflexivity|].
  split; [simpl; lia|]. split; [vm_compute; reflexivity|].
  split; [reflexivity|].
  assert (Hdo : (do MethodPost "/send/message" send_body (store 201 success_body)).1 =
                Err (apiError {| Error_Status := "success"; Error_Time := "0"; Error_Flags := EmptyString;
                                 Error_Data := q "{'message_id':123,'token':'t'}";
                                 ErrorCode := EmptyString; Message := EmptyString |}))
    by (vm_compute; reflexivity).
  split; [|exact Hdo]. rewrite Hdo. discriminate.
Qed.

Lemma do_http_error_witness :
  (do MethodPost "/send/message" send_body (store 500 error_body)).1 =
    Err (apiError {| Error_Status := "error"; Error_Time := "0.123"; Error_Flags := "{}";
                     Error_Data := q "{'error':'test error'}";
                     ErrorCode := "test-error"; Message := "Test error message" |}) /\
  "Test error message" = envelope_message error_body.
Proof.
  eapply (do_http_error (store 500 error_body) MethodPost "/send/message" send_body);
    [reflexivity | reflexivity | reflexivity | right; simpl; lia | vm_compute; reflexivity].
Defined.

Lemma do_api_error_witness :
  (exists err, (do MethodPost "/send/message" send_body (store 200 error_body)).1 = Err err) /\
  (forall e, Unmarshal_Error error_body = inr e ->
     (do MethodPost "/send/message" send_body (store 200 error_body)).1 = Err (apiError e)).
Proof.
  eapply (do_api_error (store 200 error_body) MethodPost "/send/message" send_body);
    [reflexivity | reflexivity | reflexivity | simpl; lia
    | vm_compute; reflexivity | vm_compute; discriminate].
Defined.

(** C3 as it was written fails: [odd_error_body] is a well-formed
    envelope whose status is not [success], answered with status 200, but
    its [message] is a number, so it does not decode as an error envelope
    and [do] returns a decoding error, not a [*Error]. *)
Lemma do_api_error_fails_on_number_message :
  let s := store 200 odd_error_body in
  exists req resp env,
    request_of (client s) MethodPost "/send/message" send_body = Ok req /\
    Do (HTTPClient (client s)) (sent s) req = Ok resp /\
    ReadAll resp = Ok odd_error_body /\
    (200 <= StatusCode resp < 300)%Z /\
    Unmarshal_Response odd_error_body = inr env /\
    Status env <> "success" /\
    (do MethodPost "/send/message" send_body s).1 =
      Err (Errorf "error unmarshaling error response" (jsonError UnmarshalError)) /\
    (forall e, (do MethodPost "/send/message" send_body s).1 <> Err (apiError e)).
Proof.
  cbv zeta. eexists _, _, _.
  split; [reflexivity|]. split; [reflexivity|]. split; [reflexivity|].
  split; [simpl; lia|]. split; [vm_compute; reflexivity|].
  assert (Hdo : (do MethodPost "/send/message" send_body (store 200 odd_error_body)).1 =
                Err (Errorf "error unmarshaling error response" (jsonError UnmarshalError)))
    by (vm_compute; reflexivity).
  split; [vm_compute; discriminate|]. split; [exact Hdo|].
  intros e. rewrite Hdo. discriminate.
Qed.

Lemma do_ok_status_witness :
  Status {| Status := "success"; Time := "0"; Flags := EmptyString;
            Data := q "{'message_id':123,'token':'t'}" |} = "success".
Proof.
  apply (do_ok_status (store 200 success_body) MethodPost "/send/message" send_body).
  left. vm_compute. reflexivity.
Defined.

Lemma call_parse_error_witness :
  (call (CallGetMessage 123) (store 200 bad_data_body)).1 =
    Err (Errorf "error unmarshaling response" (jsonError UnmarshalError)).
Proof.
  eapply (call_parse_error (CallGetMessage 123) (store 200 bad_data_body)).
  - vm_compute. reflexivity.
  - vm_compute. reflexivity.
Defined.

Lemma call_transport_error_witness :
  (call (CallSendRaw None) (store 500 error_body)).1 =
    Err (apiError {| Error_Status := "error"; Error_Time := "0.123"; Error_Flags := "{}";
                     Error_Data := q "{'error':'test error'}";
                     ErrorCode := "test-error"; Message := "Test error message" |}).
Proof.
  apply (call_transport_error (CallSendRaw None) (store 500 error_body)).
  vm_compute. reflexivity.
Defined.

Lemma call_posts_to_path_witness :
  List.length (issued (call (CallGetMessageDeliveries 123)) (store 200 success_body)) = 1.
Proof.
  apply (call_posts_to_path (CallGetMessageDeliveries 123) (store 200 success_body)).
  reflexivity.
Defined.

Lemma SendMessage_example_witness :
  (SendMessage (Some request) (store 200 success_body)).1 =
    Ok {| models.MessageID := 123; models.Token := "t" |}.
Proof.
  apply (SendMessage_example (store 200 success_body) request
           {| StatusCode := 200; ReadAll := Ok success_body |});
    reflexivity.
Defined.

(** The package's own tests of [Error], [do] and the headers. *)
Example TestErrorMethod :
  Error_Error {| Error_Status := "error"; Error_Time := "0.123"; Error_Flags := "{}";
                 Error_Data := q "{'error': 'test error'}";
                 ErrorCode := "test-error"; Message := "Test error message" |} =
  "postal API error: error - Test error message".
Proof. reflexivity. Qed.

Example TestClientDo_headers :
  exists r, issued (post "/test" send_body) (store 200 success_body) = [r] /\
    Header_Get "Content-Type" (Req_Header r) = "application/json" /\
    Header_Get "Accept" (Req_Header r) = "application/json" /\
    Header_Get "X-Server-API-Key" (Req_Header r) = "test-api-key".
Proof. eexists. split; [vm_compute; reflexivity|]. vm_compute. by repeat split. Qed.

Example TestClientDoRequestCreationError :
  (post "/test" (None : option (gmap string Z))
     {| client := {| BaseURL := "http://invalid-url-with-" +:+ String (chr 127) "-character";
                     APIKey := "test-api-key";
                     HTTPClient := {| Timeout := DefaultTimeout; Do := DefaultTransport |} |};
        sent := [] |}).1 =
  Err (Errorf "error creating request"
         (errorString "net/url: invalid control character in URL")).
Proof. vm_compute. reflexivity. Qed.

Example TestNewClient :
  APIKey (NewClient "test-api-key") = "test-api-key" /\
  BaseURL (NewClient "test-api-key") = DefaultBaseURL /\
  Timeout (HTTPClient (NewClient "test-api-key")) = DefaultTimeout.
Proof. by repeat split. Qed.

Example TestClientDoHTTPClientError :
  (post "/test" send_body {| client := NewClient "test-api-key"; sent := [] |}).1 =
  Err (Errorf "error performing request" (errorString "mock transport error")).
Proof. vm_compute. reflexivity. Qed.

Example TestClientDoHTTPErrorUnmarshalError :
  (post "/test" send_body
     (store 500 (q "{'status':'error','time':0.123,'flags':{},'data':invalid-json}"))).1 =
  Err (Errorf "error unmarshaling error response" (jsonError SyntaxError)).
Proof. vm_compute. reflexivity. Qed.

Example TestClientDoUnmarshalErrorResponseError :
  (post "/test" send_body
     (store 200 (q "{'status':'error','time':0.123,'flags':{},'data':invalid-json}"))).1 =
  Err (Errorf "error unmarshaling response" (jsonError SyntaxError)).
Proof. vm_compute. reflexivity. Qed.

Example TestGetMessage :
  exists m,
    (GetMessage 123
       (store 200 (q "{ 'status': 'success', 'time': 0.123, 'flags': {},
                        'data': { 'id': 123, 'token': 'test-token' } }"))).1 = Ok m /\
    models.Message_ID m = 123%Z /\ models.Message_Token m = "test-token".
Proof. eexists. split; [vm_compute; reflexivity|]. by split. Qed.

Example TestGetMessageDeliveries :
  exists d,
    (GetMessageDeliveries 123
       (store 200 (q "{ 'status': 'success', 'time': 0.123, 'flags': {},
                        'data': [ { 'id': 123, 'status': 'delivered',
                                    'details': 'test details', 'output': 'test output',
                                    'sent_with_ssl': true, 'log_id': 456, 'time': 0.456,
                                    'timestamp': '2023-01-01T00:00:00Z' } ] }"))).1 = Ok [d] /\
    models.Delivery_ID d = 123%Z /\ models.Delivery_Status d = "delivered" /\
    models.SentWithSSL d = true.
Proof. eexists. split; [vm_compute; reflexivity|]. by repeat split. Qed.

Example TestSendMessageError :
  exists e,
    (SendMessage (Some request)
       (store 200 (q "{ 'status': 'parameter-error', 'time': 0.123, 'flags': {},
                        'data': {'errors': {'from': ['is required']}},
                        'error_code': 'validation-error',
                        'message': 'The provided data was not sufficient to send an email' }"))).1
      = Err (apiError e) /\
    Error_Error e =
      "postal API error: parameter-error - The provided data was not sufficient to send an email".
Proof. eexists. split; [vm_compute; reflexivity|]. reflexivity. Qed.

(** ** More statements at work *)

Import Doubles.

Lemma do_error_classes_witness :
  do_error (Errorf "error performing request" (errorString "mock transport error")).
Proof.
  apply (do_error_classes mock_store MethodPost "/test" send_body).
  vm_compute. reflexivity.
Defined.

Lemma do_marshal_error_witness :
  do MethodPost "/test" (Some BadValue) (store 200 success_body) =
  (Err (Errorf "error marshaling request body"
          (errorString "json: unsupported type: chan int")),
   store 200 success_body).
Proof.
  apply (do_marshal_error (store 200 success_body) MethodPost "/test" BadValue).
  reflexivity.
Defined.


Lemma do_transport_error_witness :
  do MethodPost "/test" send_body mock_store =
  (Err (Errorf "error performing request" (errorString "mock transport error")),
   {| client := client mock_store;
      sent := sent mock_store ++
              [ {| Method := "POST"; URL := "https://postal.example.com/api/v1/test";
                   Req_Header := expected_headers (client mock_store);
                   Body := Some "{}" |} ] |}).
Proof.
  apply (do_transport_error mock_store MethodPost "/test" send_body).
  - vm_compute. reflexivity.
  - reflexivity.
Defined.

Lemma do_read_error_witness :
  (do MethodPost "/test" send_body unread_store).1 =
  Err (Errorf "error reading response body" (errorString "read error")).
Proof.
  eapply (do_read_error unread_store MethodPost "/test" send_body);
    [reflexivity | reflexivity | reflexivity].
Defined.

Lemma do_invalid_json_witness :
  (do MethodPost "/test" send_body (store 200 invalid_body)).1 =
  Err (Errorf "error unmarshaling response" (jsonError SyntaxError)).
Proof.
  eapply (do_invalid_json (store 200 invalid_body) MethodPost "/test" send_body _
            {| StatusCode := 200; ReadAll := Ok invalid_body |});
    [reflexivity | reflexivity | reflexivity | vm_compute; reflexivity].
Defined.

Lemma Unmarshal_Error_Response_witness :
  exists env,
    Unmarshal_Response error_body = inr env /\
    agree env {| Error_Status := "error"; Error_Time := "0.123"; Error_Flags := "{}";
                 Error_Data := q "{'error':'test error'}";
                 ErrorCode := "test-error"; Message := "Test error message" |}.
Proof.
  apply (Unmarshal_Error_Response error_body). vm_compute. reflexivity.
Defined.

Lemma do_200_error_witness :
  let err : error := apiError {| Error_Status := "error"; Error_Time := "0.123"; Error_Flags := "{}";
                         Error_Data := q "{'error':'test error'}";
                         ErrorCode := "test-error"; Message := "Test error message" |} in
  (forall e, err = apiError e -> Error_Status e <> "success") /\
  err <> Errorf "error unmarshaling error response" (jsonError SyntaxError).
Proof.
  eapply (do_200_error (store 200 error_body) MethodPost "/send/message" send_body _
            {| StatusCode := 200; ReadAll := Ok error_body |} error_body);
    [reflexivity | reflexivity | reflexivity | reflexivity | vm_compute; reflexivity].
Defined.

Lemma do_data_valid_witness :
  let env : Response := {| Status := "success"; Time := float64_zero; Flags := EmptyString;
                           Data := q "{'message_id':123,'token':'t'}" |} in
  Data env = EmptyString \/ exists v, scan (Data env) = Some v.
Proof.
  apply (do_data_valid MethodPost "/send/message" send_body (store 200 success_body)).
  vm_compute. reflexivity.
Defined.

Lemma call_fields_witness :
  value_matches
    (DeliveriesValue
       [ {| models.Delivery_ID := 1; models.Delivery_Status := "Sent";
            models.Delivery_Details := "sent to mx"; models.Output := EmptyString;
            models.SentWithSSL := false; models.LogID := 0;
            models.Delivery_Time := float64_zero; models.Timestamp := time_zero |};
         {| models.Delivery_ID := 2; models.Delivery_Status := "SoftFail";
            models.Delivery_Details := "try again"; models.Output := EmptyString;
            models.SentWithSSL := false; models.LogID := 0;
            models.Delivery_Time := float64_zero; models.Timestamp := time_zero |} ])
    (q "[{'id':1,'status':'Sent','details':'sent to mx'},{'id':2,'status':'SoftFail','details':'try again'}]").
Proof.
  apply (call_fields (CallGetMessageDeliveries 123) (store 200 deliveries_body)
           {| Status := "success"; Time := float64_zero; Flags := EmptyString;
              Data := q "[{'id':1,'status':'Sent','details':'sent to mx'},{'id':2,'status':'SoftFail','details':'try again'}]" |}).
  - vm_compute. reflexivity.
  - vm_compute. reflexivity.
Defined.

Lemma call_syntax_error_witness :
  (call (CallGetMessage 123) (store 200 no_data_body)).1 =
    Err (Errorf "error unmarshaling response" (jsonError SyntaxError)) <->
  Data ({| Status := "success"; Time := float64_zero; Flags := "{}";
           Data := EmptyString |} : Response) = EmptyString.
Proof.
  apply (call_syntax_error (CallGetMessage 123) (store 200 no_data_body)).
  vm_compute. reflexivity.
Defined.

Lemma call_null_data_witness :
  (call (CallGetMessageDeliveries 123) (store 200 null_data_body)).1 = Ok (DeliveriesValue []).
Proof.
  apply (call_null_data (CallGetMessageDeliveries 123) (store 200 null_data_body)
           {| Status := "success"; Time := float64_zero; Flags := EmptyString;
              Data := "null" |}).
  - vm_compute. reflexivity.
  - reflexivity.
Defined.

Lemma call_error_classes_witness :
  call_error "error unmarshaling response"
    (Errorf "error unmarshaling response" (jsonError UnmarshalError)).
Proof.
  apply (call_error_classes (CallGetMessage 123) (store 200 bad_data_body)).
  vm_compute. reflexivity.
Defined.


Lemma do_error_text_witness :
  Error_Error {| Error_Status := "error"; Error_Time := "0.123"; Error_Flags := "{}";
                 Error_Data := q "{'error':'test error'}";
                 ErrorCode := "test-error"; Message := "Test error message" |} =
  "postal API error: " +:+ envelope_status error_body +:+ " - " +:+
  envelope_message error_body.
Proof.
  eapply (do_error_text (store 500 error_body) MethodPost "/send/message" send_body _
            {| StatusCode := 500; ReadAll := Ok error_body |} error_body);
    [reflexivity | reflexivity | reflexivity | vm_compute; reflexivity].
Defined.

Lemma NewClient_requests_witness :
  Timeout (HTTPClient (NewClient "test-api-key")) = DefaultTimeout /\
  Forall
    (fun r => URL r = DefaultBaseURL +:+ endpoint_path (CallGetMessage 123) /\
              Header_Get "X-Server-API-Key" (Req_Header r) = "test-api-key")
    (issued (call (CallGetMessage 123)) {| client := NewClient "test-api-key"; sent := [] |}).
Proof.
  apply (NewClient_requests "test-api-key" DefaultBaseURL DefaultTimeout
           (NewClient "test-api-key") (CallGetMessage 123) []).
  right. split; [reflexivity|]. split; reflexivity.
Defined.
